(** * A shallow embedding of the CSP solver of [Assignment.py]

    The development follows the class [CSP]: the constraint store
    ([add_variable], [add_constraint_one_way], [get_all_arcs],
    [get_all_neighboring_arcs]), arc consistency ([revise], [inference]) and
    the search ([backtracking_search], [backtrack] and its helpers).

    Python dictionaries keep their insertion order, and the code depends on
    it ([min] returns the first minimal item, [get_all_arcs] lists the arcs in
    registration order), so a dictionary is an association list with unique
    keys kept in insertion order.  A failed dictionary lookup raises
    [KeyError]; a function of the model that can raise returns an
    [outcome].  Loops and recursion whose end depends on the data run on a
    budget of passes, and are shown to end within it.

    The code is embedded twice.  The functions on assignments pass the
    contents of the dictionary that the Python changes in place from one step
    to the next.  The functions of the module [Store] keep the dictionaries
    and their lists as objects behind references, so that what a call
    changes, and what it leaves alone, can be stated.  The two are proved to
    return the same ([store_backtracking_search_agrees]). *)

From stdpp Require Import base decidable option list numbers strings.

(** ** Outcomes: a value, a Python exception, or an exhausted iteration budget *)

Inductive exn := KeyError | ValueError.

Inductive outcome (A : Type) :=
  | Ok (x : A)
  | Raise (e : exn)
  | OutOfFuel.
Arguments Ok {A} x.
Arguments Raise {A} e.
Arguments OutOfFuel {A}.

#[global] Instance outcome_ret : MRet outcome := @Ok.
#[global] Instance outcome_bind : MBind outcome := λ A B f m,
  match m with
  | Ok x => f x
  | Raise e => Raise e
  | OutOfFuel => OutOfFuel
  end.

(** Reduces a bind whose first argument is a known result, and nothing else. *)
Ltac step_bind := cbn [mbind outcome_bind] in *.

(** A computation of the model ends, with a value or an exception, within
    the passes it was given. *)
Definition terminates {A} (m : outcome A) : Prop := m ≠ OutOfFuel.

(** ** Dictionaries in insertion order *)

Abbreviation dict K V := (list (K * V)) (only parsing).

Section dict.
Context {K V : Type} `{EqDecision K}.

Fixpoint dget (k : K) (d : dict K V) : option V :=
  match d with
  | [] => None
  | (k', v) :: d' => if decide (k = k') then Some v else dget k d'
  end.

(** [d[k] = v]: an existing key keeps its place, a new key goes last. *)
Fixpoint dset (k : K) (v : V) (d : dict K V) : dict K V :=
  match d with
  | [] => [(k, v)]
  | (k', v') :: d' =>
      if decide (k = k') then (k, v) :: d' else (k', v') :: dset k v d'
  end.

(** [d[k]] as an expression: [KeyError] when the key is absent. *)
Definition subscript (d : dict K V) (k : K) : outcome V :=
  match dget k d with
  | Some v => Ok v
  | None => Raise KeyError
  end.

Definition keys (d : dict K V) : list K := d.*1.
Definition values (d : dict K V) : list V := d.*2.
End dict.

(** An arc is an ordered pair of variables; an assignment maps every variable
    to the list of the values it can still take. *)
Abbreviation arc Var := (Var * Var)%type (only parsing).
Abbreviation assignment Var Val := (dict Var (list Val)) (only parsing).

(** ** The constraint store *)

Section csp.
Context {Var Val : Type} `{EqDecision Var} `{EqDecision Val}.

Record CSP := mkCSP {
  variables : list Var;
  domains : dict Var (list Val);
  constraints : dict Var (dict Var (list (Val * Val)));
  backtrack_called : nat;
  backtrack_failed : nat
}.

Definition init : CSP := mkCSP [] [] [] 0 0.

Definition add_variable (name : Var) (domain : list Val) (self : CSP) : CSP :=
  mkCSP (variables self ++ [name])
        (dset name domain (domains self))
        (dset name [] (constraints self))
        (backtrack_called self) (backtrack_failed self).

(** [itertools.product(a, b)]: the first component varies slowest. *)
Definition get_all_possible_pairs {A B} (a : list A) (b : list B) : list (A * B) :=
  x ← a; y ← b; [(x, y)].

Definition get_all_arcs (self : CSP) : list (arc Var) :=
  '(i, ci) ← constraints self; j ← keys ci; [(i, j)].

Definition get_all_neighboring_arcs (self : CSP) (var : Var) : outcome (list (arc Var)) :=
  cv ← subscript (constraints self) var;
  Ok ((λ i, (i, var)) <$> keys cv).

Definition add_constraint_one_way (i j : Var) (filter_function : Val → Val → bool)
    (self : CSP) : outcome CSP :=
  ci ← subscript (constraints self) i;
  pairs ← match dget j ci with
          | Some pairs => Ok pairs
          | None =>
              di ← subscript (domains self) i;
              dj ← subscript (domains self) j;
              Ok (get_all_possible_pairs di dj)
          end;
  let legal := filter (λ value_pair, filter_function value_pair.1 value_pair.2) pairs in
  Ok (mkCSP (variables self) (domains self)
            (dset i (dset j legal ci) (constraints self))
            (backtrack_called self) (backtrack_failed self)).

Definition not_equal (x y : Val) : bool := bool_decide (x ≠ y).

(** The loop of [add_all_different_constraint] over the pairs of
    [get_all_possible_pairs variables variables]. *)
Fixpoint add_all_different_loop (pairs : list (Var * Var)) (self : CSP) : outcome CSP :=
  match pairs with
  | [] => Ok self
  | (i, j) :: rest =>
      if decide (i ≠ j)
      then self' ← add_constraint_one_way i j not_equal self;
           add_all_different_loop rest self'
      else add_all_different_loop rest self
  end.

Definition add_all_different_constraint (vars : list Var) (self : CSP) : outcome CSP :=
  add_all_different_loop (get_all_possible_pairs vars vars) self.

(** The stored relation of the ordered pair [(i, j)], when there is one. *)
Definition relation (self : CSP) (i j : Var) : option (list (Val * Val)) :=
  ci ← dget i (constraints self); dget j ci.

Definition registered (self : CSP) (i j : Var) : Prop := is_Some (relation self i j).
End csp.
Arguments CSP : clear implicits.

(** ** Arc consistency and search, as functions on the assignment

    [revise] and [inference] change the dictionary they are handed in place:
    here they return its new contents together with their result.  The
    work-set of [inference] is a Python [set], whose [pop] takes an
    unspecified element: the set is a duplicate-free list and [pop_index]
    chooses the position that is popped (taken modulo the size); every result
    below holds for every such policy. *)

Section solver.
Context {Var Val : Type} `{EqDecision Var} `{EqDecision Val}.
Variable pop_index : list (arc Var) → nat.

Implicit Types (self : CSP Var Val) (a : assignment Var Val) (i j var : Var) (x y value : Val).

(** [l.remove(x)]: drops the first element equal to [x]; [ValueError] when
    there is none. *)
Fixpoint list_remove (x : Val) (l : list Val) : option (list Val) :=
  match l with
  | [] => None
  | y :: l' => if decide (y = x) then Some l' else cons y <$> list_remove x l'
  end.

(** [any((x, y) in self.constraints[i][j] for y in assignment[j])]: the
    generator looks the relation up once per [y], so an empty [assignment[j]]
    never reaches the lookup. *)
Definition any_support self i j x (dj : list Val) : outcome bool :=
  match dj with
  | [] => Ok false
  | _ :: _ =>
      ci ← subscript (constraints self) i;
      cij ← subscript ci j;
      Ok (existsb (λ y, bool_decide ((x, y) ∈ cij)) dj)
  end.

(** The [for x in assignment[i]] loop of [revise].  The list iterator keeps
    a position [idx] into the list object, which the body shortens while the
    loop runs: after a removal the next element has moved into the position
    just visited and the iterator steps past it. *)
Fixpoint revise_loop self i j (fuel idx : nat) a (revised : bool)
    : outcome (assignment Var Val * bool) :=
  match fuel with
  | 0 => OutOfFuel
  | S fuel' =>
      di ← subscript a i;
      match di !! idx with
      | None => Ok (a, revised)
      | Some x =>
          dj ← subscript a j;
          supported ← any_support self i j x dj;
          if supported : bool then revise_loop self i j fuel' (S idx) a revised
          else match list_remove x di with
               | None => Raise ValueError
               | Some di' => revise_loop self i j fuel' (S idx) (dset i di' a) true
               end
      end
  end.

Definition revise self a i j : outcome (assignment Var Val * bool) :=
  di ← subscript a i;
  revise_loop self i j (S (length di)) 0 a false.

(** The work-set. *)
Definition set_of_list (queue : list (arc Var)) : list (arc Var) := remove_dups queue.

Definition set_add (q : list (arc Var)) (t : arc Var) : list (arc Var) :=
  if decide (t ∈ q) then q else q ++ [t].

Definition set_pop (q : list (arc Var)) : option (arc Var * list (arc Var)) :=
  let k := pop_index q `mod` length q in
  (λ t, (t, delete k q)) <$> q !! k.

Fixpoint inference_loop self (fuel : nat) a (queue_set : list (arc Var))
    : outcome (assignment Var Val * bool) :=
  match fuel with
  | 0 => OutOfFuel
  | S fuel' =>
      match set_pop queue_set with
      | None => Ok (a, true)
      | Some ((xi, xj), queue_set) =>
          '(a, revised) ← revise self a xi xj;
          if revised : bool then
            di ← subscript a xi;
            if decide (length di = 0) then Ok (a, false)
            else
              neighbors ← get_all_neighboring_arcs self xi;
              inference_loop self fuel' a (foldl set_add queue_set neighbors)
          else inference_loop self fuel' a queue_set
      end
  end.

(** The number of values left in all domains. *)
Definition total_size a : nat := sum_list (length <$> values a).

(** Passes of the [while] loop that [inference] can need: a pass that
    revises drops a value and queues at most the arcs of one variable, any
    other pass shortens the work-set. *)
Definition inference_budget self a (queue_set : list (arc Var)) : nat :=
  S (length queue_set + total_size a * S (length (get_all_arcs self))).

Definition inference self a (queue : list (arc Var)) : outcome (assignment Var Val * bool) :=
  let queue_set := set_of_list queue in
  inference_loop self (inference_budget self a queue_set) a queue_set.

(** Search. *)
Definition order_domain_values var a : outcome (list Val) := subscript a var.

Definition assignment_is_done a : bool :=
  forallb (λ possibilities, negb (bool_decide (1 < length possibilities))) (values a).

(** Python's [min(iterable, key=...)]: the first item with the least key;
    [ValueError] on an empty iterable. *)
Fixpoint py_min_from {A} (key : A → nat) (best : A) (l : list A) : A :=
  match l with
  | [] => best
  | item :: l' => py_min_from key (if decide (key item < key best) then item else best) l'
  end.

Definition py_min {A} (key : A → nat) (l : list A) : outcome A :=
  match l with
  | [] => Raise ValueError
  | item :: l' => Ok (py_min_from key item l')
  end.

Definition select_unassigned_variable a : outcome Var :=
  let undecided_variables := filter (λ item, 1 < length item.2) a in
  item ← py_min (λ item, length item.2) undecided_variables;
  Ok item.1.

(** What [backtrack] returns: [False] or an assignment. *)
Inductive answer := PyFalse | Found (a : assignment Var Val).

(** [if result:] — [False] and the empty dictionary are falsy. *)
Definition truthy (result : answer) : bool :=
  match result with
  | PyFalse | Found [] => false
  | Found (_ :: _) => true
  end.

Record counters := mkCounters { called : nat; failed : nat }.

(** [copy.deepcopy] of a dictionary of lists of immutable values: at the
    level of values, the same contents. *)
Definition deepcopy a : assignment Var Val := a.

(** One pass of the [for value in ...] loop up to the recursive call: the
    copy, the tentative value and the propagation from the arcs of [var]. *)
Definition branch self a var value : outcome (assignment Var Val * bool) :=
  let assignment_copy := deepcopy a in
  let assignment_copy := dset var [value] assignment_copy in
  neighbors ← get_all_neighboring_arcs self var;
  inference self assignment_copy neighbors.

Fixpoint candidates_loop self (recurse : assignment Var Val → counters → outcome answer * counters)
    a var (vals : list Val) (cnt : counters) : outcome answer * counters :=
  match vals with
  | [] => (Ok PyFalse, mkCounters (called cnt) (S (failed cnt)))
  | value :: rest =>
      match branch self a var value with
      | Ok (assignment_copy, true) =>
          match recurse assignment_copy cnt with
          | (Ok result, cnt) =>
              if truthy result then (Ok result, cnt)
              else candidates_loop self recurse a var rest cnt
          | (failure, cnt) => (failure, cnt)
          end
      | Ok (_, false) => candidates_loop self recurse a var rest cnt
      | Raise e => (Raise e, cnt)
      | OutOfFuel => (OutOfFuel, cnt)
      end
  end.

(** [backtrack] with a bound [depth] on the nesting of its calls. *)
Fixpoint backtrack_at self (depth : nat) a (cnt : counters) : outcome answer * counters :=
  match depth with
  | 0 => (OutOfFuel, cnt)
  | S depth' =>
      let cnt := mkCounters (S (called cnt)) (failed cnt) in
      if assignment_is_done a then (Ok (Found a), cnt)
      else
        match select_unassigned_variable a with
        | Ok unassigned_variable =>
            match order_domain_values unassigned_variable a with
            | Ok vals =>
                candidates_loop self (backtrack_at self depth') a unassigned_variable vals cnt
            | Raise e => (Raise e, cnt)
            | OutOfFuel => (OutOfFuel, cnt)
            end
        | Raise e => (Raise e, cnt)
        | OutOfFuel => (OutOfFuel, cnt)
        end
  end.

(** The variables that are not decided yet. *)
Definition undecided a : nat := length (filter (λ item, 1 < length item.2) a).

Definition with_counters self (cnt : counters) : CSP Var Val :=
  mkCSP (variables self) (domains self) (constraints self) (called cnt) (failed cnt).

Definition counters_of self : counters :=
  mkCounters (backtrack_called self) (backtrack_failed self).

Definition backtrack self a : outcome answer * CSP Var Val :=
  let '(result, cnt) := backtrack_at self (S (undecided a)) a (counters_of self) in
  (result, with_counters self cnt).

Definition backtracking_search self : outcome answer * CSP Var Val :=
  let assignment := deepcopy (domains self) in
  match inference self assignment (get_all_arcs self) with
  | Ok (assignment, _) => backtrack self assignment
  | Raise e => (Raise e, self)
  | OutOfFuel => (OutOfFuel, self)
  end.
End solver.
Arguments answer : clear implicits.
Arguments PyFalse {Var Val}.

(** ** The same code over a store of objects

    Here the dictionaries and lists of the search are objects of a store,
    named by their address, and the code reads and writes them through
    references as the Python does: [assignment[i].remove(x)] overwrites a list
    object, [copy.deepcopy] allocates, [backtrack] returns a reference.  A
    reference the store does not hold reads as an empty object and cannot be
    written (Python has no such reference). *)

Module Store.
(** References are addresses, in the order of allocation. *)
Abbreviation loc := nat (only parsing).

Section store.
Context {Var Val : Type} `{EqDecision Var} `{EqDecision Val}.
Variable pop_index : list (arc Var) → nat.

Record heap := mkHeap {
  lists : list (list Val);
  dicts : list (dict Var loc)
}.

Implicit Types (self : CSP Var Val) (h : heap) (d l : loc) (i j var : Var).

Definition read_list h l : list Val := lists h !!! l.
Definition read_dict h d : dict Var loc := dicts h !!! d.
Definition write_list h l (v : list Val) : heap := mkHeap (<[l := v]> (lists h)) (dicts h).
Definition write_dict h d (v : dict Var loc) : heap := mkHeap (lists h) (<[d := v]> (dicts h)).
Definition alloc_list h (v : list Val) : loc * heap :=
  (length (lists h), mkHeap (lists h ++ [v]) (dicts h)).
Definition alloc_dict h (v : dict Var loc) : loc * heap :=
  (length (dicts h), mkHeap (lists h) (dicts h ++ [v])).

(** The contents of the dictionary at [d], read through the store. *)
Definition view h d : assignment Var Val :=
  (λ item, (item.1, read_list h item.2)) <$> read_dict h d.

(** [copy.deepcopy] of a dictionary of lists: one new list per list object
    met ([memo] maps the lists already copied to their copies, so that two
    keys sharing a list share its copy), then the new dictionary; keys and
    values are immutable and shared. *)
Fixpoint deepcopy_items (items : dict Var loc) (memo : dict loc loc) h : dict Var loc * heap :=
  match items with
  | [] => ([], h)
  | (k, l) :: rest =>
      match dget l memo with
      | Some l' =>
          let '(rest', h) := deepcopy_items rest memo h in ((k, l') :: rest', h)
      | None =>
          let '(l', h) := alloc_list h (read_list h l) in
          let '(rest', h) := deepcopy_items rest ((l, l') :: memo) h in ((k, l') :: rest', h)
      end
  end.

Definition deepcopy h d : loc * heap :=
  let '(items, h) := deepcopy_items (read_dict h d) [] h in
  alloc_dict h items.

(** A step that reads the store and may raise: the store is left as it
    is. *)
Definition reading {A B} (m : outcome A) h (k : A → outcome B * heap) : outcome B * heap :=
  match m with
  | Ok x => k x
  | Raise e => (Raise e, h)
  | OutOfFuel => (OutOfFuel, h)
  end.

Fixpoint revise_loop self i j (fuel idx : nat) d h (revised : bool) : outcome bool * heap :=
  match fuel with
  | 0 => (OutOfFuel, h)
  | S fuel' =>
      reading (subscript (read_dict h d) i) h (λ li,
      match read_list h li !! idx with
      | None => (Ok revised, h)
      | Some x =>
          reading (subscript (read_dict h d) j) h (λ lj,
          reading (any_support self i j x (read_list h lj)) h (λ supported,
          if supported : bool then revise_loop self i j fuel' (S idx) d h revised
          else match list_remove x (read_list h li) with
               | None => (Raise ValueError, h)
               | Some di' => revise_loop self i j fuel' (S idx) d (write_list h li di') true
               end))
      end)
  end.

Definition revise self h d i j : outcome bool * heap :=
  reading (subscript (read_dict h d) i) h (λ li,
  revise_loop self i j (S (length (read_list h li))) 0 d h false).

Fixpoint inference_loop self (fuel : nat) h d (queue_set : list (arc Var))
    : outcome bool * heap :=
  match fuel with
  | 0 => (OutOfFuel, h)
  | S fuel' =>
      match set_pop pop_index queue_set with
      | None => (Ok true, h)
      | Some ((xi, xj), queue_set) =>
          match revise self h d xi xj with
          | (Ok true, h) =>
              reading (subscript (read_dict h d) xi) h (λ li,
              if decide (length (read_list h li) = 0) then (Ok false, h)
              else
                reading (get_all_neighboring_arcs self xi) h (λ neighbors,
                inference_loop self fuel' h d (foldl set_add queue_set neighbors)))
          | (Ok false, h) => inference_loop self fuel' h d queue_set
          | failure => failure
          end
      end
  end.

Definition inference self h d (queue : list (arc Var)) : outcome bool * heap :=
  let queue_set := set_of_list queue in
  inference_loop self (inference_budget self (view h d) queue_set) h d queue_set.

(** What [backtrack] returns: [False] or a reference to a dictionary. *)
Inductive answer := PyFalse | Found (d : loc).

Definition truthy h (result : answer) : bool :=
  match result with
  | PyFalse => false
  | Found d => match read_dict h d with [] => false | _ :: _ => true end
  end.

Definition branch self h d var (value : Val) : outcome (loc * bool) * heap :=
  let '(assignment_copy, h) := deepcopy h d in
  let '(l, h) := alloc_list h [value] in
  let h := write_dict h assignment_copy (dset var l (read_dict h assignment_copy)) in
  reading (get_all_neighboring_arcs self var) h (λ neighbors,
  match inference self h assignment_copy neighbors with
  | (Ok consistent, h) => (Ok (assignment_copy, consistent), h)
  | (Raise e, h) => (Raise e, h)
  | (OutOfFuel, h) => (OutOfFuel, h)
  end).

(** The [for value in ...] loop: the iterator holds the list object [lv] of
    the caller's dictionary and a position in it, and reads the store at
    every pass. *)
Fixpoint candidates_loop self (recurse : heap → loc → counters → outcome answer * heap * counters)
    d var lv (fuel idx : nat) h (cnt : counters) : outcome answer * heap * counters :=
  match fuel with
  | 0 => (OutOfFuel, h, cnt)
  | S fuel' =>
      match read_list h lv !! idx with
      | None => (Ok PyFalse, h, mkCounters (called cnt) (S (failed cnt)))
      | Some value =>
          match branch self h d var value with
          | (Ok (assignment_copy, true), h) =>
              match recurse h assignment_copy cnt with
              | (Ok result, h, cnt) =>
                  if truthy h result then (Ok result, h, cnt)
                  else candidates_loop self recurse d var lv fuel' (S idx) h cnt
              | failure => failure
              end
          | (Ok (_, false), h) => candidates_loop self recurse d var lv fuel' (S idx) h cnt
          | (Raise e, h) => (Raise e, h, cnt)
          | (OutOfFuel, h) => (OutOfFuel, h, cnt)
          end
      end
  end.

Fixpoint backtrack_at self (depth : nat) h d (cnt : counters) : outcome answer * heap * counters :=
  match depth with
  | 0 => (OutOfFuel, h, cnt)
  | S depth' =>
      let cnt := mkCounters (S (called cnt)) (failed cnt) in
      if assignment_is_done (view h d) then (Ok (Found d), h, cnt)
      else
        match select_unassigned_variable (view h d) with
        | Ok unassigned_variable =>
            match subscript (read_dict h d) unassigned_variable with
            | Ok lv =>
                candidates_loop self (backtrack_at self depth') d unassigned_variable lv
                  (S (length (read_list h lv))) 0 h cnt
            | Raise e => (Raise e, h, cnt)
            | OutOfFuel => (OutOfFuel, h, cnt)
            end
        | Raise e => (Raise e, h, cnt)
        | OutOfFuel => (OutOfFuel, h, cnt)
        end
  end.

Definition backtrack self h d : outcome answer * heap * CSP Var Val :=
  let '(result, h, cnt) := backtrack_at self (S (undecided (view h d))) h d (counters_of self) in
  (result, h, with_counters self cnt).

(** The store in which [self.domains] is the only dictionary: its lists are
    the fresh [list(domain)] objects of [add_variable], in the order of the
    keys. *)
Definition domains_heap self : heap :=
  mkHeap (values (domains self)) [imap (λ n item, (item.1, n)) (domains self)].

Definition domains_ref : loc := 0.

Definition backtracking_search self : outcome answer * heap * CSP Var Val :=
  let '(assignment, h) := deepcopy (domains_heap self) domains_ref in
  match inference self h assignment (get_all_arcs self) with
  | (Ok _, h) => backtrack self h assignment
  | (Raise e, h) => (Raise e, h, self)
  | (OutOfFuel, h) => (OutOfFuel, h, self)
  end.
End store.
End Store.

(** ** Instances used to run the model

    Variables and values are strings, as in the Sudoku and map-colouring
    builders. *)

Module Examples.
Open Scope string_scope.

(** Two policies for [set.pop]: the oldest and the newest element. *)
Definition pop_first : list (arc string) → nat := λ _, 0.
Definition pop_last : list (arc string) → nat := λ q, pred (length q).

Definition never (x y : string) : bool := false.

(** Two variables and one relation, registered from ["i"] to ["j"] only,
    that allows no pair. *)
Definition one_way : CSP string string :=
  mkCSP ["i"; "j"]
        [("i", ["1"; "2"]); ("j", ["9"])]
        [("i", [("j", [])]); ("j", [])]
        0 0.

(** A row of two cells that both hold the digit 5. *)
Definition two_fives : CSP string string :=
  mkCSP ["0-0"; "0-1"]
        [("0-0", ["5"]); ("0-1", ["5"])]
        [("0-0", [("0-1", [])]); ("0-1", [("0-0", [])])]
        0 0.

(** Three cells of one row that all hold the digit 5. *)
Definition three_fives : CSP string string :=
  mkCSP ["0-0"; "0-1"; "0-2"]
        [("0-0", ["5"]); ("0-1", ["5"]); ("0-2", ["5"])]
        [("0-0", [("0-1", []); ("0-2", [])]);
         ("0-1", [("0-0", []); ("0-2", [])]);
         ("0-2", [("0-0", []); ("0-1", [])])]
        0 0.

(** Three mutually different variables over three colours. *)
Definition three_colours : CSP string string :=
  let differ := [("r", "g"); ("r", "b"); ("g", "r"); ("g", "b"); ("b", "r"); ("b", "g")] in
  mkCSP ["A"; "B"; "C"]
        [("A", ["r"; "g"; "b"]); ("B", ["r"; "g"; "b"]); ("C", ["r"; "g"; "b"])]
        [("A", [("B", differ); ("C", differ)]);
         ("B", [("A", differ); ("C", differ)]);
         ("C", [("A", differ); ("B", differ)])]
        0 0.

(** A constraint registered in one direction only, from ["k"] to ["v"]: the
    value of ["v"] must be ["2"]. *)
Definition towards_v : CSP string string :=
  mkCSP ["k"; "v"]
        [("k", ["1"]); ("v", ["1"; "2"])]
        [("k", [("v", [("1", "2")])]); ("v", [])]
        0 0.

(** Four mutually different variables over three colours: no solution, and
    the propagation alone does not see it. *)
Definition four_clique : CSP string string :=
  let differ := [("r", "g"); ("r", "b"); ("g", "r"); ("g", "b"); ("b", "r"); ("b", "g")] in
  let colours := ["r"; "g"; "b"] in
  mkCSP ["A"; "B"; "C"; "D"]
        [("A", colours); ("B", colours); ("C", colours); ("D", colours)]
        [("A", [("B", differ); ("C", differ); ("D", differ)]);
         ("B", [("A", differ); ("C", differ); ("D", differ)]);
         ("C", [("A", differ); ("B", differ); ("D", differ)]);
         ("D", [("A", differ); ("B", differ); ("C", differ)])]
        0 0.

(** A fully specified Sudoku row that holds the digit 1 twice, as the Sudoku
    builder registers it: one variable per cell, with the cell's digit as
    its only value, and the all-different constraint of the row. *)
Definition row_cells : list string :=
  ["0-0"; "0-1"; "0-2"; "0-3"; "0-4"; "0-5"; "0-6"; "0-7"; "0-8"].

Definition row_digits : list string := ["1"; "1"; "3"; "4"; "5"; "6"; "7"; "8"; "9"].

Definition row_with_two_ones : CSP string string :=
  Eval vm_compute in
    default init
      (match add_all_different_constraint row_cells
               (foldl (λ self cell, add_variable cell.1 [cell.2] self) init
                      (zip row_cells row_digits)) with
       | Ok self => Some self
       | _ => None
       end).
End Examples.

(** ** Statements about the constraint store *)

Section csp_statements.
Context {Var Val : Type} `{EqDecision Var} `{EqDecision Val}.
Implicit Types (self : CSP Var Val) (i j v : Var).

(** The claim of the specification about [get_all_neighboring_arcs]: the
    arcs returned for [v] are the registered arcs whose target is [v]. *)
Definition returns_incoming_arcs self v : Prop :=
  ∀ ns, get_all_neighboring_arcs self v = Ok ns →
    ∀ i j, (i, j) ∈ ns ↔ j = v ∧ registered self i j.

(** Every registered arc has its reverse registered: the two-way
    convention that the docstring of [add_constraint_one_way] asks of its
    callers. *)
Definition two_way self : Prop := ∀ i j, registered self i j → registered self j i.

(** Successive calls of [add_constraint_one_way] for one ordered pair. *)
Fixpoint add_constraints_one_way i j (ps : list (Val → Val → bool)) self
    : outcome (CSP Var Val) :=
  match ps with
  | [] => Ok self
  | p :: ps => self' ← add_constraint_one_way i j p self; add_constraints_one_way i j ps self'
  end.

Definition satisfies_all (ps : list (Val → Val → bool)) (value_pair : Val * Val) : bool :=
  forallb (λ p : Val → Val → bool, p value_pair.1 value_pair.2) ps.
End csp_statements.

(** ** Statements about assignments *)

Section assignment_statements.
Context {Var Val : Type} `{EqDecision Var} `{EqDecision Val}.
Implicit Types (self : CSP Var Val) (a : assignment Var Val) (i j : Var).

(** [narrows a' a]: [a'] has the keys of [a], in the same order, and each of
    its domains is a sub-sequence of the domain in [a]. *)
Definition narrows a' a : Prop :=
  Forall2 (λ item' item : Var * list Val, item'.1 = item.1 ∧ item'.2 `sublist_of` item.2) a' a.

(** [x] has support for the arc [(i, j)]: some value of [j]'s domain forms
    with it a pair of the stored relation. *)
Definition has_support self a i j (x : Val) : Prop :=
  ∃ dj cij y, dget j a = Some dj ∧ relation self i j = Some cij ∧ y ∈ dj ∧ (x, y) ∈ cij.

(** The claim of the specification about [revise]: after the call no value
    without support is left in the domain of [i]. *)
Definition leaves_only_supported self a i j : Prop :=
  ∀ a' revised, revise self a i j = Ok (a', revised) →
    ∀ di' x, dget i a' = Some di' → x ∈ di' → has_support self a' i j x.

(** [visits a a']: a call of [backtrack] on [a] can lead to a call of
    [backtrack] on [a']: either [a'] is [a], or the call selects a variable,
    a value of its domain passes the propagation of [branch], and the call
    made on the result leads to [a']. *)
Inductive visits (pop_index : list (arc Var) → nat) self : assignment Var Val → assignment Var Val → Prop :=
  | visits_here a : visits pop_index self a a
  | visits_branch a var vals value a1 a' :
      assignment_is_done a = false →
      select_unassigned_variable a = Ok var →
      order_domain_values var a = Ok vals →
      value ∈ vals →
      branch pop_index self a var value = Ok (a1, true) →
      visits pop_index self a1 a' →
      visits pop_index self a a'.

(** A variable is decided when exactly one value is left. *)
Definition decided a i (x : Val) : Prop := dget i a = Some [x].

(** The claim of soundness: in a returned assignment, the values of two
    decided variables joined by a registered arc form a pair of its
    relation. *)
Definition sound self a : Prop :=
  ∀ i j cij x y, relation self i j = Some cij → decided a i x → decided a j y → (x, y) ∈ cij.

(** The two-way convention of the builders ([add_all_different_constraint],
    the map colouring): every registered arc has its reverse registered, and
    the two relations hold the same pairs, one transposed from the other. *)
Definition mutual self : Prop :=
  ∀ i j cij, relation self i j = Some cij →
    ∃ cji, relation self j i = Some cji ∧ ∀ x y, (x, y) ∈ cij ↔ (y, x) ∈ cji.

(** [pending self a q]: every registered arc whose two variables are decided
    in [a] on a pair outside its relation is in the work-set [q], in one
    direction or the other. *)
Definition pending self a (q : list (arc Var)) : Prop :=
  ∀ i j cij x y, relation self i j = Some cij → decided a i x → decided a j y →
    (x, y) ∉ cij → (i, j) ∈ q ∨ (j, i) ∈ q.

(** No variable is left without values. *)
Definition no_empty_domain a : Prop := ∀ i, dget i a ≠ Some [].

(** The variables of every registered arc are keys of [a]. *)
Definition covers self a : Prop :=
  ∀ i j, registered self i j → is_Some (dget i a) ∧ is_Some (dget j a).

(** [mutual] and [covers] as checks that run on a given store. *)
Definition mutualb self : bool :=
  forallb (λ t : arc Var,
    match relation self t.1 t.2, relation self t.2 t.1 with
    | Some cij, Some cji =>
        forallb (λ p : Val * Val, bool_decide ((p.2, p.1) ∈ cji)) cij &&
        forallb (λ p : Val * Val, bool_decide ((p.2, p.1) ∈ cij)) cji
    | _, _ => false
    end) (get_all_arcs self).

Definition coversb self a : bool :=
  forallb (λ t : arc Var, bool_decide (is_Some (dget t.1 a) ∧ is_Some (dget t.2 a)))
    (get_all_arcs self).
End assignment_statements.

(** The claim of soundness for every store, policy and result. *)
Definition search_is_sound : Prop :=
  ∀ (pop_index : list (arc string) → nat) (self : CSP string string) a self',
    backtracking_search pop_index self = (Ok (Found a), self') → sound self a.

(** ** Statements about the store *)

Section store_statements.
Context {Var Val : Type}.
Implicit Types (h : Store.heap (Val := Val) (Var := Var)) (d l : Store.loc).

(** Every object that [h] holds is held by [h'] at the same address with the
    same contents. *)
Definition preserved h h' : Prop :=
  (∀ l v, Store.lists h !! l = Some v → Store.lists h' !! l = Some v) ∧
  (∀ d v, Store.dicts h !! d = Some v → Store.dicts h' !! d = Some v).

(** [h] holds the dictionary at [d] and the lists it refers to. *)
Definition allocated h d : Prop :=
  is_Some (Store.dicts h !! d) ∧
  ∀ l, l ∈ values (Store.read_dict h d) → is_Some (Store.lists h !! l).

(** The dictionary at [c] and its lists are objects that [h] does not hold. *)
Definition fresh_copy h h' c : Prop :=
  Store.dicts h !! c = None ∧
  ∀ l, l ∈ values (Store.read_dict h' c) → Store.lists h !! l = None.

(** [h] holds the dictionary at [d] and its lists, and no list is stored
    under two keys. *)
Definition separate h d : Prop :=
  allocated h d ∧ NoDup (values (Store.read_dict h d)).

(** What a step over the store amounts to for the dictionary at [d]: its
    result and the contents it leaves. *)
Definition observe d (r : outcome bool * Store.heap (Val := Val) (Var := Var))
    : outcome (assignment Var Val * bool) :=
  match r.1 with
  | Ok b => Ok (Store.view r.2 d, b)
  | Raise e => Raise e
  | OutOfFuel => OutOfFuel
  end.

(** The answer of a search over the store, read through the store it
    leaves. *)
Definition observe_answer (r : outcome Store.answer * Store.heap (Val := Val) (Var := Var))
    : outcome (answer Var Val) :=
  match r.1 with
  | Ok Store.PyFalse => Ok PyFalse
  | Ok (Store.Found c) => Ok (Found (Store.view r.2 c))
  | Raise e => Raise e
  | OutOfFuel => OutOfFuel
  end.

(** The same for a pass of the loop of [backtrack], which returns the
    reference of the copy, and for a call with its counters. *)
Definition observe_branch (r : outcome (nat * bool) * Store.heap (Val := Val) (Var := Var))
    : outcome (assignment Var Val * bool) :=
  match r.1 with
  | Ok (c, b) => Ok (Store.view r.2 c, b)
  | Raise e => Raise e
  | OutOfFuel => OutOfFuel
  end.

Definition observe_call
    (r : outcome Store.answer * Store.heap (Val := Val) (Var := Var) * counters)
    : outcome (answer Var Val) * counters :=
  (observe_answer r.1, r.2).

(** A function over the store and a function on assignments that return the
    same on every dictionary without shared lists, the first leaving the
    objects of its caller as they are. *)
Definition agree
    (over_store : Store.heap (Val := Val) (Var := Var) → nat → counters →
                  outcome Store.answer * Store.heap (Val := Val) (Var := Var) * counters)
    (on_values : assignment Var Val → counters → outcome (answer Var Val) * counters) : Prop :=
  ∀ h c cnt, separate h c →
    observe_call (over_store h c cnt) = on_values (Store.view h c) cnt ∧
    preserved h (over_store h c cnt).1.2.
End store_statements.

(** * Properties *)

(** ** Dictionaries *)

Section dict_facts.
Context {K V : Type} `{EqDecision K}.
Implicit Types (d : dict K V) (k : K) (v : V).

Lemma dget_dset d k k' v :
  dget k' (dset k v d) = if decide (k' = k) then Some v else dget k' d.
Proof.
  induction d as [|[k0 v0] d IH]; simpl.
  - repeat case_decide; congruence.
  - destruct (decide (k = k0)) as [->|Hne]; simpl.
    + repeat case_decide; congruence.
    + rewrite IH. repeat case_decide; congruence.
Qed.

Lemma dget_dset_eq d k v : dget k (dset k v d) = Some v.
Proof. rewrite dget_dset. by case_decide. Qed.

Lemma dget_dset_ne d k k' v : k' ≠ k → dget k' (dset k v d) = dget k' d.
Proof. intros. rewrite dget_dset. by case_decide. Qed.

Lemma dget_Some_elem_of d k v : dget k d = Some v → (k, v) ∈ d.
Proof.
  induction d as [|[k0 v0] d IH]; simpl; [done|].
  case_decide; intros; simplify_eq; [left | right; auto].
Qed.

Lemma dget_is_Some_keys d k : is_Some (dget k d) ↔ k ∈ keys d.
Proof.
  unfold keys. induction d as [|[k0 v0] d IH]; simpl.
  - split; [by intros [? ?] | by intros ?%elem_of_nil].
  - rewrite elem_of_cons, <- IH. case_decide; subst; simpl.
    + split; [by left | by eexists].
    + split; [by right | by intros [?|?]].
Qed.

Lemma elem_of_dget d k v : NoDup (keys d) → (k, v) ∈ d → dget k d = Some v.
Proof.
  unfold keys. induction d as [|[k0 v0] d IH]; simpl; intros Hnd Hin.
  - by apply elem_of_nil in Hin.
  - apply NoDup_cons in Hnd as [Hk0 Hnd]. apply elem_of_cons in Hin as [Heq|Hin].
    + simplify_eq. by case_decide.
    + case_decide; [|by auto]. subst. destruct Hk0.
      apply (list_elem_of_fmap_2 fst) in Hin. done.
Qed.

Lemma subscript_Ok d k v : subscript d k = Ok v ↔ dget k d = Some v.
Proof. unfold subscript. destruct (dget k d); naive_solver. Qed.

Lemma keys_dset_present d k v : is_Some (dget k d) → keys (dset k v d) = keys d.
Proof.
  unfold keys. induction d as [|[k0 v0] d IH]; simpl.
  - by intros [? ?].
  - case_decide; subst; simpl; [done|]. intros. f_equal. by apply IH.
Qed.
End dict_facts.

(** ** The constraint store *)

Section csp_facts.
Context {Var Val : Type} `{EqDecision Var} `{EqDecision Val}.
Implicit Types (self : CSP Var Val) (i j v : Var).

Lemma registered_keys self i j ci :
  dget i (constraints self) = Some ci → registered self i j ↔ j ∈ keys ci.
Proof.
  intros Hci. unfold registered, relation. rewrite Hci. simpl.
  apply dget_is_Some_keys.
Qed.

Lemma relation_after_dset self i j ci legal i' j' vars doms called failed :
  dget i (constraints self) = Some ci →
  relation (mkCSP vars doms (dset i (dset j legal ci) (constraints self)) called failed) i' j'
  = if decide ((i', j') = (i, j)) then Some legal else relation self i' j'.
Proof.
  intros Hci. unfold relation; simpl. rewrite dget_dset.
  destruct (decide (i' = i)) as [->|Hi]; simpl.
  - rewrite dget_dset, Hci. simpl. repeat case_decide; congruence.
  - case_decide; congruence.
Qed.

(** One call: the relation it starts from is the stored one, or the full
    product on first registration; the call keeps the pairs that pass the
    predicate and touches nothing else. *)
Lemma add_constraint_one_way_step self i j p ci :
  dget i (constraints self) = Some ci →
  (relation self i j = None → is_Some (dget i (domains self)) ∧ is_Some (dget j (domains self))) →
  ∃ self' pairs,
    add_constraint_one_way i j p self = Ok self' ∧
    match relation self i j with
    | Some stored => pairs = stored
    | None => ∃ di dj, dget i (domains self) = Some di ∧ dget j (domains self) = Some dj ∧
                        pairs = get_all_possible_pairs di dj
    end ∧
    relation self' i j = Some (filter (λ vp, p vp.1 vp.2) pairs) ∧
    (∀ i' j', (i', j') ≠ (i, j) → relation self' i' j' = relation self i' j') ∧
    domains self' = domains self ∧
    variables self' = variables self ∧
    is_Some (dget i (constraints self')).
Proof.
  intros Hci Hdom. unfold add_constraint_one_way, subscript.
  assert (relation self i j = dget j ci) as Hrel by (unfold relation; by rewrite Hci).
  rewrite Hci. simpl. rewrite Hrel in *.
  destruct (dget j ci) as [stored|] eqn:Hj; simpl.
  - eexists _, stored. split; [done|]. split; [done|].
    split; [by rewrite relation_after_dset, decide_True|].
    split; [intros; by rewrite relation_after_dset, decide_False|].
    simpl. rewrite dget_dset_eq. eauto.
  - destruct Hdom as [[di Hdi] [dj Hdj]]; [done|]. rewrite Hdi, Hdj. simpl.
    eexists _, _. split; [done|]. split; [by eauto|].
    split; [by rewrite relation_after_dset, decide_True|].
    split; [intros; by rewrite relation_after_dset, decide_False|].
    simpl. rewrite dget_dset_eq. eauto.
Qed.

Lemma filter_satisfies_all (p : Val → Val → bool) ps (pairs : list (Val * Val)) :
  filter (λ vp, satisfies_all ps vp) (filter (λ vp, p vp.1 vp.2) pairs)
  = filter (λ vp, satisfies_all (p :: ps) vp) pairs.
Proof.
  rewrite list_filter_filter. apply list_filter_iff. intros vp. simpl.
  rewrite andb_True. tauto.
Qed.

(** Calls on a pair that is registered keep filtering the stored relation. *)
Lemma add_constraints_one_way_registered ps : ∀ self i j stored,
  relation self i j = Some stored →
  ∃ self',
    add_constraints_one_way i j ps self = Ok self' ∧
    relation self' i j = Some (filter (λ vp, satisfies_all ps vp) stored) ∧
    (∀ i' j', (i', j') ≠ (i, j) → relation self' i' j' = relation self i' j') ∧
    domains self' = domains self.
Proof.
  induction ps as [|p ps IH]; intros self i j stored Hrel; simpl.
  - exists self. split; [done|]. split; [|done].
    rewrite Hrel. f_equal. clear. induction stored as [|vp stored IH]; [done|].
    by rewrite filter_cons_True, <- IH.
  - assert (∃ ci, dget i (constraints self) = Some ci) as [ci Hci].
    { unfold relation in Hrel. destruct (dget i (constraints self)); [eauto|done]. }
    destruct (add_constraint_one_way_step self i j p ci Hci)
      as (self1 & pairs & -> & Hpairs & Hrel1 & Hframe1 & Hdom1 & _ & _).
    { rewrite Hrel. done. }
    rewrite Hrel in Hpairs. subst pairs. simpl.
    destruct (IH self1 i j _ Hrel1) as (self' & -> & Hrel' & Hframe' & Hdom').
    exists self'. split; [done|]. split.
    + by rewrite Hrel', filter_satisfies_all.
    + split; [|congruence]. intros i' j' Hne. rewrite Hframe', Hframe1; done.
Qed.
End csp_facts.

Section csp_claims.
Context {Var Val : Type} `{EqDecision Var} `{EqDecision Val}.
Implicit Types (self : CSP Var Val) (i j v : Var).

(** C4 (amended).  For a declared variable [v], [get_all_neighboring_arcs]
    returns the pairs [(i, v)] for exactly the [i] such that a relation is
    registered for the ordered pair [(v, i)], in the order of registration:
    it reads the arcs that leave [v] and reverses them.  When every
    registered arc has its reverse registered, these are exactly the
    registered arcs whose target is [v]. *)
Theorem get_all_neighboring_arcs_reversed_outgoing self v cv :
  dget v (constraints self) = Some cv →
  get_all_neighboring_arcs self v = Ok ((λ i, (i, v)) <$> keys cv) ∧
  (∀ i j, (i, j) ∈ (λ i, (i, v)) <$> keys cv ↔ j = v ∧ registered self v i) ∧
  (two_way self → returns_incoming_arcs self v).
Proof.
  intros Hcv.
  assert (get_all_neighboring_arcs self v = Ok ((λ i, (i, v)) <$> keys cv)) as Hget.
  { unfold get_all_neighboring_arcs, subscript. by rewrite Hcv. }
  assert (∀ i j, (i, j) ∈ (λ i, (i, v)) <$> keys cv ↔ j = v ∧ registered self v i) as Hmem.
  { intros i j. rewrite list_elem_of_fmap, (registered_keys self v i cv Hcv). split.
    - intros (k & Heq & Hk). by simplify_eq.
    - intros [-> Hi]. eauto. }
  split; [done|]. split; [done|].
  intros Htwo ns Hns i j. rewrite Hget in Hns. simplify_eq.
  rewrite Hmem. split; intros [-> Hreg]; (split; [done|]); by apply Htwo.
Qed.

(** C7.  On a pair [(i, j)] of declared variables that has no relation yet,
    a sequence of calls of [add_constraint_one_way] with the predicates
    [p :: ps] succeeds and leaves as the relation of [(i, j)] the pairs of the
    product of the two declared domains that satisfy every predicate, in the
    order of the product; the relation of every other ordered pair, the
    reverse pair [(j, i)] among them, is as it was (absent if it was absent),
    and so are the declared domains. *)
Theorem add_constraint_one_way_conjunction self i j p ps di dj :
  dget i (domains self) = Some di →
  dget j (domains self) = Some dj →
  is_Some (dget i (constraints self)) →
  relation self i j = None →
  ∃ self',
    add_constraints_one_way i j (p :: ps) self = Ok self' ∧
    relation self' i j
      = Some (filter (λ vp, satisfies_all (p :: ps) vp) (get_all_possible_pairs di dj)) ∧
    (∀ i' j', (i', j') ≠ (i, j) → relation self' i' j' = relation self i' j') ∧
    domains self' = domains self.
Proof.
  intros Hdi Hdj [ci Hci] Hnone. simpl.
  destruct (add_constraint_one_way_step self i j p ci Hci)
    as (self1 & pairs & -> & Hpairs & Hrel1 & Hframe1 & Hdom1 & _ & _); [by eauto|].
  rewrite Hnone in Hpairs. destruct Hpairs as (di' & dj' & Hdi' & Hdj' & ->).
  simplify_eq. simpl.
  destruct (add_constraints_one_way_registered ps self1 i j _ Hrel1)
    as (self' & -> & Hrel' & Hframe' & Hdom').
  exists self'. split; [done|]. split.
  - by rewrite Hrel', filter_satisfies_all.
  - split; [|congruence]. intros i' j' Hne. rewrite Hframe', Hframe1; done.
Qed.
End csp_claims.

(** [one_way] is what the calls of the interface build. *)
Lemma one_way_built :
  add_constraint_one_way "i" "j" Examples.never
    (add_variable "j" ["9"] (add_variable "i" ["1"; "2"] init)) = Ok Examples.one_way.
Proof. reflexivity. Qed.

Lemma get_all_neighboring_arcs_reversed_outgoing_witness :
  let differ := [("r", "g"); ("r", "b"); ("g", "r"); ("g", "b"); ("b", "r"); ("b", "g")] in
  dget "A" (constraints Examples.three_colours) = Some [("B", differ); ("C", differ)] ∧
  get_all_neighboring_arcs Examples.three_colours "A" = Ok [("B", "A"); ("C", "A")] ∧
  (∀ i j, (i, j) ∈ [("B", "A"); ("C", "A")] ↔ j = "A" ∧ registered Examples.three_colours "A" i).
Proof.
  intros differ.
  assert (dget "A" (constraints Examples.three_colours) = Some [("B", differ); ("C", differ)])
    as Hdeclared by reflexivity.
  split; [exact Hdeclared|].
  destruct (get_all_neighboring_arcs_reversed_outgoing Examples.three_colours "A"
              [("B", differ); ("C", differ)] Hdeclared) as (Hget & Hmem & _).
  split; [exact Hget | exact Hmem].
Defined.

(** With a relation registered one way only, from ["i"] to ["j"], the arc
    [("i", "j")] is registered and has target ["j"], and is not returned. *)
Lemma get_all_neighboring_arcs_misses_incoming :
  ¬ returns_incoming_arcs Examples.one_way "j".
Proof.
  intros Hclaim.
  specialize (Hclaim [] eq_refl "i" "j") as [_ Hin].
  assert (("i", "j") ∈ @nil (arc string)) as Hnil.
  { apply Hin. split; [done|]. by eexists. }
  by apply elem_of_nil in Hnil.
Qed.

(** And the arc it returns for ["i"] is one that was never registered. *)
Lemma get_all_neighboring_arcs_returns_unregistered :
  get_all_neighboring_arcs Examples.one_way "i" = Ok [("j", "i")] ∧
  ¬ registered Examples.one_way "j" "i".
Proof. split; [reflexivity|]. by intros [? ?]. Qed.

Lemma add_constraint_one_way_conjunction_witness :
  let self := add_variable "b" ["1"; "2"] (add_variable "a" ["1"; "2"] init) in
  let above (x y : string) := bool_decide (String.ltb y x = true) in
  ∃ self',
    add_constraints_one_way "a" "b" [not_equal; above] self = Ok self' ∧
    relation self' "a" "b" = Some [("2", "1")] ∧
    relation self' "b" "a" = None.
Proof.
  intros self above.
  destruct (add_constraint_one_way_conjunction self "a" "b" not_equal [above]
              ["1"; "2"] ["1"; "2"])
    as (self' & Hcalls & Hrel & Hframe & _);
    [reflexivity | reflexivity | by eexists | reflexivity |].
  exists self'. split; [exact Hcalls|]. split; [exact Hrel|].
  by rewrite Hframe.
Defined.

(** ** Variable selection *)

Section select_facts.
Context {Var Val : Type} `{EqDecision Var} `{EqDecision Val}.
Implicit Types (a : assignment Var Val) (var : Var).

Lemma py_min_from_least {A} (key : A → nat) (l : list A) : ∀ best,
  py_min_from key best l ∈ best :: l ∧
  ∀ item, item ∈ best :: l → key (py_min_from key best l) ≤ key item.
Proof.
  induction l as [|item0 l IH]; intros best; simpl.
  - split; [by left|]. intros item ->%list_elem_of_singleton. done.
  - destruct (IH (if decide (key item0 < key best) then item0 else best)) as [Hin Hle].
    split.
    + apply elem_of_cons in Hin as [->|Hin].
      * case_decide; [right; left | left].
      * by do 2 right.
    + intros item Hitem.
      assert (key (if decide (key item0 < key best) then item0 else best) ≤ key item0 ∧
              key (if decide (key item0 < key best) then item0 else best) ≤ key best)
        as [Hle0 Hleb] by (case_decide; lia).
      pose proof (Hle _ (list_elem_of_here _ _)) as Hhead.
      apply elem_of_cons in Hitem as [->|Hitem]; [lia|].
      apply elem_of_cons in Hitem as [->|Hitem]; [lia|].
      apply Hle. by right.
Qed.

(** What [select_unassigned_variable] returns is the key of an item with
    more than one value and no more values than any other such item. *)
Lemma select_unassigned_variable_Ok a var :
  select_unassigned_variable a = Ok var →
  ∃ dom, (var, dom) ∈ a ∧ 1 < length dom ∧
    ∀ item, item ∈ a → 1 < length item.2 → length dom ≤ length item.2.
Proof.
  unfold select_unassigned_variable.
  destruct (filter (λ item : Var * list Val, 1 < length item.2) a)
    as [|first rest] eqn:Hfilter; [done|].
  simpl. intros [= <-].
  destruct (py_min_from_least (λ item : Var * list Val, length item.2) rest first)
    as [Hmem Hleast].
  set (best := py_min_from (λ item : Var * list Val, length item.2) first rest) in *.
  rewrite <- Hfilter in Hmem. apply list_elem_of_filter in Hmem as [Hlen Hin].
  exists best.2. split; [by destruct best|]. split; [done|].
  intros item Hitem Hlong. apply (Hleast item). rewrite <- Hfilter.
  by apply list_elem_of_filter.
Qed.

(** C8.  When some variable has more than one value left,
    [select_unassigned_variable] returns a variable of the assignment that
    has more than one value left, and no variable with more than one value
    left has fewer values than it (it is [assignment[var]] as soon as the keys
    are distinct, as those of a dictionary are). *)
Theorem select_unassigned_variable_minimum_remaining a :
  (∃ item, item ∈ a ∧ 1 < length item.2) →
  ∃ var dom,
    select_unassigned_variable a = Ok var ∧
    (var, dom) ∈ a ∧
    (NoDup (keys a) → dget var a = Some dom) ∧
    1 < length dom ∧
    ∀ item, item ∈ a → 1 < length item.2 → length dom ≤ length item.2.
Proof.
  intros (item0 & Hin0 & Hlen0).
  assert (∃ var, select_unassigned_variable a = Ok var) as [var Hsel].
  { unfold select_unassigned_variable.
    assert (item0 ∈ filter (λ item : Var * list Val, 1 < length item.2) a) as Hf0
      by (by apply list_elem_of_filter).
    destruct (filter (λ item : Var * list Val, 1 < length item.2) a) as [|first rest];
      [by apply elem_of_nil in Hf0|].
    simpl. eauto. }
  destruct (select_unassigned_variable_Ok a var Hsel) as (dom & Hin & Hlen & Hleast).
  exists var, dom. split; [done|]. split; [done|].
  split; [by intros Hnd; apply elem_of_dget|]. done.
Qed.
End select_facts.

Lemma select_unassigned_variable_minimum_remaining_witness :
  let a : assignment string string :=
    [("A", ["r"; "g"; "b"]); ("B", ["r"]); ("C", ["g"; "b"]); ("D", ["r"; "b"])] in
  (∃ item, item ∈ a ∧ 1 < length item.2) ∧
  ∃ var dom, select_unassigned_variable a = Ok var ∧ (var, dom) ∈ a ∧
    (NoDup (keys a) → dget var a = Some dom) ∧ 1 < length dom ∧
    ∀ item, item ∈ a → 1 < length item.2 → length dom ≤ length item.2.
Proof.
  intros a.
  assert (∃ item, item ∈ a ∧ 1 < length item.2) as Hsome.
  { exists ("A", ["r"; "g"; "b"]). split; [by left | simpl; lia]. }
  split; [exact Hsome|].
  exact (select_unassigned_variable_minimum_remaining a Hsome).
Defined.

(** Among equally small domains the first in the order of the dictionary is
    taken. *)
Example select_unassigned_variable_first_of_ties :
  select_unassigned_variable
    [("A", ["r"; "g"; "b"]); ("B", ["r"]); ("C", ["g"; "b"]); ("D", ["r"; "b"])] = Ok "C".
Proof. reflexivity. Qed.

(** ** Narrowing, sizes and [list.remove] *)

Section narrowing.
Context {Var Val : Type} `{EqDecision Var} `{EqDecision Val}.
Implicit Types (a : assignment Var Val) (i j var : Var) (x : Val) (l : list Val).

Lemma narrows_refl a : narrows a a.
Proof. apply Forall2_same_length_lookup_2; [done|]. intros n it it' ? ?. by simplify_eq. Qed.

Lemma narrows_trans a1 a2 a3 : narrows a1 a2 → narrows a2 a3 → narrows a1 a3.
Proof.
  unfold narrows. intros H12 H23. eapply Forall2_trans; [|done..].
  simpl. intros it1 it2 it3 [-> Hs12] [-> Hs23]. split; [done|]. by etrans.
Qed.

Lemma narrows_keys a' a : narrows a' a → keys a' = keys a.
Proof.
  unfold narrows, keys. induction 1 as [|it' it a' a [Hk _] _ IH]; csimpl; [done|].
  f_equal; [exact Hk | exact IH].
Qed.

Lemma narrows_dget a' a i d' :
  narrows a' a → dget i a' = Some d' → ∃ d, dget i a = Some d ∧ d' `sublist_of` d.
Proof.
  unfold narrows. induction 1 as [|[k' v'] [k v] a' a [Hk Hs] _ IH]; csimpl in *; [done|].
  subst k'. case_decide; [|done]. intros. simplify_eq. eauto.
Qed.

Lemma narrows_dset a i d d' :
  dget i a = Some d → d' `sublist_of` d → narrows (dset i d' a) a.
Proof.
  unfold narrows. induction a as [|[k v] a IH]; csimpl; [done|].
  case_decide; intros Hd Hs; simplify_eq.
  - constructor; [done|]. apply narrows_refl.
  - constructor; [done|]. by apply IH.
Qed.

Lemma total_size_dset a i d d' :
  dget i a = Some d → total_size (dset i d' a) + length d = total_size a + length d'.
Proof.
  unfold total_size, values. induction a as [|[k v] a IH]; csimpl; [done|].
  case_decide; intros Hd; simplify_eq; csimpl; [lia|].
  specialize (IH Hd). lia.
Qed.

Lemma narrows_total_size a' a : narrows a' a → total_size a' ≤ total_size a.
Proof.
  unfold narrows, total_size, values.
  induction 1 as [|it' it a' a [_ Hs] _ IH]; csimpl; [done|].
  apply sublist_length in Hs. lia.
Qed.

Lemma narrows_undecided a' a : narrows a' a → undecided a' ≤ undecided a.
Proof.
  unfold narrows, undecided.
  induction 1 as [|it' it a' a [_ Hs] _ IH]; csimpl; [done|].
  apply sublist_length in Hs. rewrite !filter_cons.
  repeat case_decide; csimpl; lia.
Qed.

Lemma undecided_dset a var d value :
  dget var a = Some d → 1 < length d → undecided (dset var [value] a) < undecided a.
Proof.
  unfold undecided. induction a as [|[k v] a IH]; csimpl; [done|].
  case_decide; intros Hd Hlen; simplify_eq.
  - rewrite !filter_cons. csimpl. repeat case_decide; csimpl; lia.
  - specialize (IH Hd Hlen). rewrite !filter_cons. csimpl. case_decide; csimpl; lia.
Qed.

Lemma undecided_le_length a : undecided a ≤ length a.
Proof. apply length_filter. Qed.

Lemma list_remove_Some x l l' :
  list_remove x l = Some l' → l' `sublist_of` l ∧ length l = S (length l').
Proof.
  revert l'. induction l as [|y l IH]; csimpl; intros l'; [done|].
  case_decide.
  - intros. simplify_eq. split; [by apply sublist_cons | done].
  - destruct (list_remove x l) as [l0|]; csimpl; [|done]. intros. simplify_eq.
    destruct (IH l0 eq_refl) as [Hs Hl]. split; [by apply sublist_skip | csimpl; lia].
Qed.

Lemma list_remove_elem_of x l : x ∈ l → is_Some (list_remove x l).
Proof.
  induction l as [|y l IH]; csimpl; [by intros ?%elem_of_nil|].
  intros Hin. case_decide; [by eexists|].
  apply elem_of_cons in Hin as [->|Hin]; [done|].
  destruct (IH Hin) as [l' ->]. by eexists.
Qed.

Lemma singleton_sublist x l : x ∈ l → [x] `sublist_of` l.
Proof.
  intros (l1 & l2 & ->)%list_elem_of_split.
  apply sublist_inserts_l, sublist_skip, sublist_nil_l.
Qed.
End narrowing.

(** ** [revise] *)

Section revise_facts.
Context {Var Val : Type} `{EqDecision Var} `{EqDecision Val}.
Implicit Types (self : CSP Var Val) (a : assignment Var Val) (i j : Var).

Lemma revise_loop_Ok self i j fuel : ∀ idx a revised a' r,
  revise_loop self i j fuel idx a revised = Ok (a', r) →
  narrows a' a ∧
  (revised = true → r = true) ∧
  (r = false → a' = a) ∧
  (r = true → revised = true ∨ total_size a' < total_size a).
Proof.
  induction fuel as [|fuel IH]; intros idx a revised a' r; simpl; [done|].
  unfold subscript. destruct (dget i a) as [di|] eqn:Hdi; simpl; [|done].
  destruct (di !! idx) as [x|] eqn:Hx.
  - destruct (dget j a) as [dj|] eqn:Hdj; simpl; [|done].
    destruct (any_support self i j x dj) as [[|]| |]; simpl; [|destruct (list_remove x di) as [di'|] eqn:Hrm|..];
      try done.
    + apply IH.
    + intros Hloop. apply IH in Hloop as (Hn & Hr & _ & _).
      apply list_remove_Some in Hrm as [Hsub Hlen].
      pose proof (total_size_dset a i di di' Hdi) as Hsize.
      pose proof (narrows_total_size _ _ Hn) as Hle.
      rewrite (Hr eq_refl).
      split; [eapply narrows_trans; [done | by eapply narrows_dset]|].
      split; [done|]. split; [done|]. intros _. right. lia.
  - intros [= <- <-]. split; [apply narrows_refl|].
    split; [done|]. split; [done|]. by left.
Qed.

Lemma any_support_terminates self i j x dj : terminates (any_support self i j x dj).
Proof.
  unfold terminates, any_support, subscript. destruct dj; [done|].
  destruct (dget i (constraints self)) as [ci|]; simpl; [|done].
  by destruct (dget j ci).
Qed.

(** The loop ends within the passes that [revise] allows it: one per
    position of the list, and the one that finds the list exhausted. *)
Lemma revise_loop_terminates self i j fuel : ∀ idx a revised bound di,
  dget i a = Some di → length di ≤ bound → idx ≤ bound → bound < idx + fuel →
  terminates (revise_loop self i j fuel idx a revised).
Proof.
  unfold terminates.
  induction fuel as [|fuel IH]; intros idx a revised bound di Hdi Hlen Hidx Hfuel; simpl; [lia|].
  unfold subscript. rewrite Hdi. simpl.
  destruct (di !! idx) as [x|] eqn:Hx; [|done].
  apply lookup_lt_Some in Hx as Hlt.
  destruct (dget j a) as [dj|] eqn:Hdj; simpl; [|done].
  pose proof (any_support_terminates self i j x dj) as Hsup.
  destruct (any_support self i j x dj) as [[|]| |]; simpl; [| |done..].
  - apply (IH _ _ _ bound di); [done | lia..].
  - destruct (list_remove x di) as [di'|] eqn:Hrm; [|done].
    apply list_remove_Some in Hrm as [_ Hlen'].
    apply (IH _ _ _ bound di'); [apply dget_dset_eq | lia..].
Qed.

(** The value that [revise] asks [list.remove] to drop is in the list. *)
Lemma revise_loop_no_ValueError self i j fuel : ∀ idx a revised,
  revise_loop self i j fuel idx a revised ≠ Raise ValueError.
Proof.
  induction fuel as [|fuel IH]; intros idx a revised; simpl; [done|].
  unfold subscript. destruct (dget i a) as [di|] eqn:Hdi; simpl; [|done].
  destruct (di !! idx) as [x|] eqn:Hx; [|done].
  destruct (dget j a) as [dj|] eqn:Hdj; simpl; [|done].
  assert (any_support self i j x dj ≠ Raise ValueError) as Hsup.
  { unfold any_support, subscript. destruct dj; [done|].
    destruct (dget i (constraints self)) as [ci|]; simpl; [|done].
    by destruct (dget j ci). }
  destruct (any_support self i j x dj) as [[|]|[]|]; simpl; try done.
  destruct (list_remove_elem_of x di) as [di' ->]; [by eapply list_elem_of_lookup_2|].
  apply IH.
Qed.

Lemma revise_Ok self a i j a' r :
  revise self a i j = Ok (a', r) →
  narrows a' a ∧ (r = false → a' = a) ∧ (r = true → total_size a' < total_size a).
Proof.
  unfold revise, subscript. destruct (dget i a) as [di|]; step_bind; [|done].
  intros (Hn & _ & Hfalse & Htrue)%revise_loop_Ok.
  split; [done|]. split; [done|]. intros Hr. by destruct (Htrue Hr).
Qed.

Lemma revise_terminates self a i j : terminates (revise self a i j).
Proof.
  unfold revise, subscript. destruct (dget i a) as [di|] eqn:Hdi; step_bind; [|done].
  apply (revise_loop_terminates _ _ _ _ _ _ _ (length di) di); [done | lia..].
Qed.
End revise_facts.

(** C3 (the code departs from the claim).  On the domain [["1"; "2"]] of
    ["i"], with no pair allowed between ["i"] and ["j"], [revise] removes
    ["1"], steps over ["2"], which has moved into the position just visited,
    and returns [True]: ["2"] is left in the domain without support. *)
Theorem revise_leaves_unsupported_value :
  revise Examples.one_way [("i", ["1"; "2"]); ("j", ["9"])] "i" "j"
    = Ok ([("i", ["2"]); ("j", ["9"])], true) ∧
  ¬ has_support Examples.one_way [("i", ["2"]); ("j", ["9"])] "i" "j" "2" ∧
  ¬ leaves_only_supported Examples.one_way [("i", ["1"; "2"]); ("j", ["9"])] "i" "j".
Proof.
  assert (¬ has_support Examples.one_way [("i", ["2"]); ("j", ["9"])] "i" "j" "2") as Hno.
  { intros (dj & cij & y & _ & Hrel & _ & Hin). vm_compute in Hrel. simplify_eq.
    by apply elem_of_nil in Hin. }
  split; [reflexivity|]. split; [exact Hno|].
  intros Hclaim. apply Hno.
  apply (Hclaim _ true eq_refl ["2"]); [reflexivity | by left].
Qed.

(** Three values of which the last two have no support: the second is
    removed and the third is never looked at. *)
Example revise_skips_next_value :
  let self : CSP string string :=
    mkCSP ["i"; "j"] [("i", ["1"; "2"; "3"]); ("j", ["2"])]
          [("i", [("j", [("1", "2")])]); ("j", [])] 0 0 in
  revise self (domains self) "i" "j" = Ok ([("i", ["1"; "3"]); ("j", ["2"])], true).
Proof. reflexivity. Qed.

(** ** [inference] *)

Section inference_facts.
Context {Var Val : Type} `{EqDecision Var} `{EqDecision Val}.
Variable pop_index : list (arc Var) → nat.
Implicit Types (self : CSP Var Val) (a : assignment Var Val) (i j : Var) (q : list (arc Var)).

Lemma set_pop_Some q t q' :
  set_pop pop_index q = Some (t, q') → t ∈ q ∧ length q = S (length q').
Proof.
  unfold set_pop. destruct (q !! (pop_index q `mod` length q)) as [t0|] eqn:Hk; [|done].
  simpl. intros [= <- <-]. split; [by eapply list_elem_of_lookup_2|].
  apply lookup_lt_Some in Hk as Hlt. rewrite length_delete by eauto. lia.
Qed.

Lemma set_pop_None q : set_pop pop_index q = None → q = [].
Proof.
  unfold set_pop. destruct q as [|t q]; [done|].
  destruct ((t :: q) !! (pop_index (t :: q) `mod` length (t :: q))) eqn:Hk; [done|].
  apply lookup_ge_None in Hk.
  pose proof (Nat.mod_upper_bound (pop_index (t :: q)) (length (t :: q))) as Hlt.
  simpl in *. lia.
Qed.

Lemma set_add_length q t : length (set_add q t) ≤ S (length q).
Proof. unfold set_add. case_decide; [lia|]. rewrite length_app. simpl. lia. Qed.

Lemma foldl_set_add_length ns : ∀ q, length (foldl set_add q ns) ≤ length q + length ns.
Proof.
  induction ns as [|t ns IH]; intros q; simpl; [lia|].
  specialize (IH (set_add q t)). pose proof (set_add_length q t). lia.
Qed.

Lemma get_all_arcs_length self v cv :
  dget v (constraints self) = Some cv → length cv ≤ length (get_all_arcs self).
Proof.
  unfold get_all_arcs. generalize (constraints self) as cs.
  induction cs as [|[k ck] cs IH]; csimpl; [done|].
  rewrite length_app. case_decide.
  - intros [= <-]. unfold keys.
    assert (∀ l : list Var, length (l ≫= λ j, [(k, j)]) = length l) as ->.
    { induction l as [|? ? IHl]; csimpl; [done|]. by rewrite IHl. }
    rewrite length_fmap. lia.
  - intros Hv. specialize (IH Hv). lia.
Qed.

Lemma get_all_neighboring_arcs_length self v ns :
  get_all_neighboring_arcs self v = Ok ns → length ns ≤ length (get_all_arcs self).
Proof.
  unfold get_all_neighboring_arcs, subscript.
  destruct (dget v (constraints self)) as [cv|] eqn:Hcv; step_bind; [|done].
  intros [= <-]. unfold keys. rewrite !length_fmap. by eapply get_all_arcs_length.
Qed.

Lemma get_all_neighboring_arcs_terminates self v :
  terminates (get_all_neighboring_arcs self v).
Proof.
  unfold terminates, get_all_neighboring_arcs, subscript.
  by destruct (dget v (constraints self)).
Qed.

Lemma inference_loop_Ok self fuel : ∀ a q a' r,
  inference_loop pop_index self fuel a q = Ok (a', r) → narrows a' a.
Proof.
  induction fuel as [|fuel IH]; intros a q a' r; simpl; [done|].
  destruct (set_pop pop_index q) as [[[xi xj] q']|]; [|intros [= <- <-]; apply narrows_refl].
  destruct (revise self a xi xj) as [[a1 revised]| |] eqn:Hrev; step_bind; [|done..].
  apply revise_Ok in Hrev as [Hn1 _].
  destruct revised.
  - unfold subscript. destruct (dget xi a1) as [di|]; step_bind; [|done].
    case_decide; [by intros [= <- <-]|].
    destruct (get_all_neighboring_arcs self xi) as [ns| |]; step_bind; [|done..].
    intros Hloop%IH. by eapply narrows_trans.
  - intros Hloop%IH. by eapply narrows_trans.
Qed.

(** A failed propagation leaves a variable without values. *)
Lemma inference_loop_false self fuel : ∀ a q a',
  inference_loop pop_index self fuel a q = Ok (a', false) → ∃ xi, dget xi a' = Some [].
Proof.
  induction fuel as [|fuel IH]; intros a q a'; simpl; [done|].
  destruct (set_pop pop_index q) as [[[xi xj] q']|]; [|done].
  destruct (revise self a xi xj) as [[a1 revised]| |] eqn:Hrev; step_bind; [|done..].
  destruct revised; [|by apply IH].
  unfold subscript. destruct (dget xi a1) as [di|] eqn:Hdi; step_bind; [|done].
  case_decide as Hlen.
  - intros [= <-]. exists xi. by apply nil_length_inv in Hlen as ->.
  - destruct (get_all_neighboring_arcs self xi) as [ns| |]; step_bind; [|done..].
    by apply IH.
Qed.

Lemma inference_loop_terminates self fuel : ∀ a q,
  length q + total_size a * S (length (get_all_arcs self)) < fuel →
  terminates (inference_loop pop_index self fuel a q).
Proof.
  unfold terminates.
  induction fuel as [|fuel IH]; intros a q Hfuel; simpl; [lia|].
  destruct (set_pop pop_index q) as [[[xi xj] q']|] eqn:Hpop; [|done].
  apply set_pop_Some in Hpop as [_ Hlen].
  pose proof (revise_terminates self a xi xj) as Hterm. unfold terminates in Hterm.
  destruct (revise self a xi xj) as [[a1 revised]| |] eqn:Hrev; step_bind; [|done..].
  apply revise_Ok in Hrev as (_ & Hsame & Hless).
  destruct revised.
  - specialize (Hless eq_refl).
    unfold subscript. destruct (dget xi a1) as [di|]; step_bind; [|done].
    case_decide; [done|].
    pose proof (get_all_neighboring_arcs_terminates self xi) as Hnt. unfold terminates in Hnt.
    destruct (get_all_neighboring_arcs self xi) as [ns| |] eqn:Hns; step_bind; [|done..].
    apply get_all_neighboring_arcs_length in Hns.
    apply IH. pose proof (foldl_set_add_length ns q'). nia.
  - rewrite (Hsame eq_refl). apply IH. lia.
Qed.

Lemma inference_Ok self a queue a' r :
  inference pop_index self a queue = Ok (a', r) → narrows a' a.
Proof. apply inference_loop_Ok. Qed.

Lemma inference_false self a queue a' :
  inference pop_index self a queue = Ok (a', false) → ∃ xi, dget xi a' = Some [].
Proof. apply inference_loop_false. Qed.

Lemma inference_terminates self a queue : terminates (inference pop_index self a queue).
Proof. apply inference_loop_terminates. unfold inference_budget. lia. Qed.
End inference_facts.

(** ** [backtrack] *)

Section backtrack_facts.
Context {Var Val : Type} `{EqDecision Var} `{EqDecision Val}.
Variable pop_index : list (arc Var) → nat.
Variable self : CSP Var Val.
Implicit Types (a : assignment Var Val) (var : Var) (cnt : counters).

Lemma branch_Ok a var vals value a' r :
  dget var a = Some vals →
  branch pop_index self a var value = Ok (a', r) →
  narrows a' (dset var [value] a) ∧
  (1 < length vals → undecided a' < undecided a) ∧
  (value ∈ vals → narrows a' a).
Proof.
  intros Hvals. unfold branch, deepcopy.
  destruct (get_all_neighboring_arcs self var) as [ns| |]; step_bind; [|done..].
  intros Hn%inference_Ok. split; [done|]. split.
  - intros Hlen. apply narrows_undecided in Hn.
    pose proof (undecided_dset a var vals value Hvals Hlen). lia.
  - intros Hin. eapply narrows_trans; [done|].
    eapply narrows_dset; [done|]. by apply singleton_sublist.
Qed.

Lemma branch_terminates a var value : terminates (branch pop_index self a var value).
Proof.
  unfold branch.
  pose proof (get_all_neighboring_arcs_terminates self var) as Hnt. unfold terminates in *.
  destruct (get_all_neighboring_arcs self var) as [ns| |]; step_bind; [|done..].
  apply inference_terminates.
Qed.

(** The variable that is selected has more than one value left. *)
Lemma select_unassigned_variable_undecided a var :
  NoDup (keys a) → select_unassigned_variable a = Ok var →
  ∃ vals, dget var a = Some vals ∧ 1 < length vals.
Proof.
  intros Hnd (vals & Hin & Hlen & _)%select_unassigned_variable_Ok.
  exists vals. split; [by apply elem_of_dget | done].
Qed.

(** An induction principle for the results of [backtrack]: a property of
    the call and its result holds as soon as it holds of a finished
    assignment and of [False], and passes from the call made on a branch to
    the caller. *)
Section result_induction.
Variable P : assignment Var Val → answer Var Val → Prop.
Hypothesis P_done : ∀ a, assignment_is_done a = true → P a (Found a).
Hypothesis P_false : ∀ a, P a PyFalse.
Hypothesis P_branch : ∀ a var vals value a' result,
  assignment_is_done a = false →
  select_unassigned_variable a = Ok var →
  order_domain_values var a = Ok vals →
  value ∈ vals →
  branch pop_index self a var value = Ok (a', true) →
  P a' result → truthy result = true → P a result.

Lemma candidates_loop_result recurse a var vals :
  assignment_is_done a = false →
  select_unassigned_variable a = Ok var →
  order_domain_values var a = Ok vals →
  (∀ a' cnt result cnt', recurse a' cnt = (Ok result, cnt') → P a' result) →
  ∀ rest cnt result cnt',
    rest ⊆ vals →
    candidates_loop pop_index self recurse a var rest cnt = (Ok result, cnt') → P a result.
Proof.
  intros Hdone Hsel Hvals Hrec.
  induction rest as [|value rest IH]; intros cnt result cnt' Hsub; simpl.
  - intros [= <- <-]. apply P_false.
  - assert (value ∈ vals) as Hin by (apply Hsub; by left).
    assert (rest ⊆ vals) as Hsub' by (intros ? ?; apply Hsub; by right).
    destruct (branch pop_index self a var value) as [[a' [|]]| |] eqn:Hbranch; [|by eauto|done..].
    destruct (recurse a' cnt) as [[result'| |] cnt1] eqn:Hcall; [|done..].
    destruct (truthy result') eqn:Htruthy; [|by eauto].
    intros [= <- <-]. eapply P_branch; eauto.
Qed.

Lemma backtrack_at_result depth : ∀ a cnt result cnt',
  backtrack_at pop_index self depth a cnt = (Ok result, cnt') → P a result.
Proof.
  induction depth as [|depth IH]; intros a cnt result cnt'; simpl; [done|].
  destruct (assignment_is_done a) eqn:Hdone; [intros [= <- <-]; by apply P_done|].
  destruct (select_unassigned_variable a) as [var| |] eqn:Hsel; [|done..].
  destruct (order_domain_values var a) as [vals| |] eqn:Hvals; [|done..].
  by apply (candidates_loop_result _ a var vals).
Qed.
End result_induction.

Lemma backtrack_at_narrows depth a cnt a' cnt' :
  backtrack_at pop_index self depth a cnt = (Ok (Found a'), cnt') → narrows a' a.
Proof.
  intros Hrun.
  refine (backtrack_at_result (λ a result, ∀ a', result = Found a' → narrows a' a)
            _ _ _ depth a cnt _ cnt' Hrun a' eq_refl).
  - intros a0 _ a1 [= <-]. apply narrows_refl.
  - done.
  - intros a0 var vals value a1 result _ _ Hvals%subscript_Ok Hin Hbranch IH _ a2 ->.
    eapply narrows_trans; [by apply IH|].
    by eapply (branch_Ok a0 var vals value a1 true Hvals Hbranch).
Qed.

Lemma visits_narrows a a' : visits pop_index self a a' → narrows a' a.
Proof.
  induction 1 as [a|a var vals value a1 a' _ _ Hvals%subscript_Ok Hin Hbranch _ IH];
    [apply narrows_refl|].
  eapply narrows_trans; [done|].
  by eapply (branch_Ok a var vals value a1 true Hvals Hbranch).
Qed.
End backtrack_facts.

(** ** Termination of the search *)

Section termination.
Context {Var Val : Type} `{EqDecision Var} `{EqDecision Val}.
Variable pop_index : list (arc Var) → nat.
Variable self : CSP Var Val.
Implicit Types (a : assignment Var Val) (var : Var) (cnt : counters).

Lemma branch_keys a var vals value a' r :
  dget var a = Some vals →
  branch pop_index self a var value = Ok (a', r) → keys a' = keys a.
Proof.
  intros Hvals. unfold branch, deepcopy.
  destruct (get_all_neighboring_arcs self var) as [ns| |]; step_bind; [|done..].
  intros Hn%inference_Ok%narrows_keys. rewrite Hn. by apply keys_dset_present.
Qed.

Lemma candidates_loop_terminates recurse a var vals :
  (∀ value a' r cnt, value ∈ vals → branch pop_index self a var value = Ok (a', r) →
     terminates (recurse a' cnt).1) →
  ∀ rest cnt, rest ⊆ vals →
    terminates (candidates_loop pop_index self recurse a var rest cnt).1.
Proof.
  intros Hrec. unfold terminates in *.
  induction rest as [|value rest IH]; intros cnt Hsub; simpl; [done|].
  assert (value ∈ vals) as Hin by (apply Hsub; by left).
  assert (rest ⊆ vals) as Hsub' by (intros ? ?; apply Hsub; by right).
  pose proof (branch_terminates pop_index self a var value) as Hbt. unfold terminates in Hbt.
  destruct (branch pop_index self a var value) as [[a' [|]]| |] eqn:Hbranch; [|by eauto|done..].
  specialize (Hrec value a' true cnt Hin Hbranch).
  destruct (recurse a' cnt) as [[result'| |] cnt1] eqn:Hcall; [|done..].
  destruct (truthy result'); [done|by eauto].
Qed.

Lemma backtrack_at_terminates depth : ∀ a cnt,
  NoDup (keys a) → undecided a < depth →
  terminates (backtrack_at pop_index self depth a cnt).1.
Proof.
  unfold terminates.
  induction depth as [|depth IH]; intros a cnt Hnd Hdepth; simpl; [lia|].
  destruct (assignment_is_done a) eqn:Hdone; [done|].
  destruct (select_unassigned_variable a) as [var|e|] eqn:Hsel; [|done|].
  - destruct (select_unassigned_variable_undecided a var Hnd Hsel) as (vals & Hvals & Hlen).
    unfold order_domain_values, subscript. rewrite Hvals.
    apply (candidates_loop_terminates _ a var vals); [|done].
    intros value a' r cnt' Hin Hbranch. apply IH.
    + by erewrite branch_keys.
    + eapply branch_Ok in Hbranch as (_ & Hless & _); [|done]. specialize (Hless Hlen). lia.
  - unfold select_unassigned_variable in Hsel.
    by destruct (filter (λ item : Var * list Val, 1 < length item.2) a).
Qed.

(** More depth than a call needs does not change what it returns. *)
Lemma candidates_loop_deeper recurse recurse' a var :
  (∀ a' cnt, (recurse a' cnt).1 ≠ OutOfFuel → recurse' a' cnt = recurse a' cnt) →
  ∀ rest cnt,
    (candidates_loop pop_index self recurse a var rest cnt).1 ≠ OutOfFuel →
    candidates_loop pop_index self recurse' a var rest cnt
    = candidates_loop pop_index self recurse a var rest cnt.
Proof.
  intros Hrec. induction rest as [|value rest IH]; intros cnt; simpl; [done|].
  destruct (branch pop_index self a var value) as [[a' [|]]| |] eqn:Hbranch; [|by eauto|done..].
  destruct (recurse a' cnt) as [[result'| |] cnt1] eqn:Hcall.
  - rewrite Hrec by (by rewrite Hcall). rewrite Hcall.
    destruct (truthy result'); [done|by eauto].
  - rewrite Hrec by (by rewrite Hcall). by rewrite Hcall.
  - done.
Qed.

Lemma backtrack_at_deeper depth : ∀ a cnt,
  (backtrack_at pop_index self depth a cnt).1 ≠ OutOfFuel →
  backtrack_at pop_index self (S depth) a cnt = backtrack_at pop_index self depth a cnt.
Proof.
  induction depth as [|depth IH]; intros a cnt; [done|].
  change (backtrack_at pop_index self (S (S depth)) a cnt) with
    (let cnt := mkCounters (S (called cnt)) (failed cnt) in
     if assignment_is_done a then (Ok (Found a), cnt)
     else match select_unassigned_variable a with
          | Ok unassigned_variable =>
              match order_domain_values unassigned_variable a with
              | Ok vals => candidates_loop pop_index self (backtrack_at pop_index self (S depth))
                             a unassigned_variable vals cnt
              | Raise e => (Raise e, cnt)
              | OutOfFuel => (OutOfFuel, cnt)
              end
          | Raise e => (Raise e, cnt)
          | OutOfFuel => (OutOfFuel, cnt)
          end).
  simpl.
  destruct (assignment_is_done a); [done|].
  destruct (select_unassigned_variable a) as [var| |]; [|done..].
  destruct (order_domain_values var a) as [vals| |]; [|done..].
  by apply candidates_loop_deeper.
Qed.

Lemma backtrack_at_deeper_le depth depth' a cnt :
  depth ≤ depth' →
  (backtrack_at pop_index self depth a cnt).1 ≠ OutOfFuel →
  backtrack_at pop_index self depth' a cnt = backtrack_at pop_index self depth a cnt.
Proof.
  induction 1 as [|depth' _ IH]; [done|]. intros Hterm.
  rewrite <- (IH Hterm). apply backtrack_at_deeper. by rewrite (IH Hterm).
Qed.

(** C9.  On a dictionary [a] (distinct keys), [backtrack] returns or raises
    within a nesting of calls of at most the number of undecided variables
    plus one, the call on [a] included, hence at most the number of variables
    plus one; more depth changes nothing; the propagation of each branch ends
    too; and every call made by the loop is on an assignment with strictly
    fewer undecided variables than [a]. *)
Theorem backtrack_terminates_within_depth a :
  NoDup (keys a) →
  (∀ depth cnt, undecided a < depth →
     terminates (backtrack_at pop_index self depth a cnt).1 ∧
     backtrack_at pop_index self depth a cnt
     = backtrack_at pop_index self (S (undecided a)) a cnt) ∧
  terminates (backtrack pop_index self a).1 ∧
  undecided a ≤ length a ∧
  (∀ var value, terminates (branch pop_index self a var value)) ∧
  (∀ var value a' consistent,
     select_unassigned_variable a = Ok var →
     branch pop_index self a var value = Ok (a', consistent) →
     NoDup (keys a') ∧ undecided a' < undecided a).
Proof.
  intros Hnd.
  assert (∀ cnt, terminates (backtrack_at pop_index self (S (undecided a)) a cnt).1) as Hterm
    by (intros; apply backtrack_at_terminates; [done | lia]).
  split; [|split; [|split; [|split]]].
  - intros depth cnt Hdepth. split; [by apply backtrack_at_terminates|].
    apply backtrack_at_deeper_le; [lia | apply Hterm].
  - unfold backtrack. specialize (Hterm (counters_of self)).
    by destruct (backtrack_at pop_index self (S (undecided a)) a (counters_of self))
      as [result cnt].
  - apply undecided_le_length.
  - intros. apply branch_terminates.
  - intros var value a' consistent Hsel Hbranch.
    destruct (select_unassigned_variable_undecided a var Hnd Hsel) as (vals & Hvals & Hlen).
    split; [by erewrite branch_keys|].
    eapply branch_Ok in Hbranch as (_ & Hless & _); [by apply Hless | done].
Qed.
End termination.

(** ** What the search returns *)

Section search_facts.
Context {Var Val : Type} `{EqDecision Var} `{EqDecision Val}.
Variable pop_index : list (arc Var) → nat.
Implicit Types (self : CSP Var Val) (a : assignment Var Val) (var : Var) (cnt : counters).

(** [pop] on a set that is not empty takes one of its elements. *)
Lemma set_pop_cases (q : list (arc Var)) :
  q ≠ [] →
  ∃ k t, k < length q ∧ q !! k = Some t ∧ set_pop pop_index q = Some (t, delete k q).
Proof.
  intros Hq. unfold set_pop.
  assert (pop_index q `mod` length q < length q) as Hlt.
  { apply Nat.mod_upper_bound. by destruct q. }
  destruct (lookup_lt_is_Some_2 q _ Hlt) as [t Ht].
  exists (pop_index q `mod` length q), t. by rewrite Ht.
Qed.

Lemma assignment_is_done_spec a :
  assignment_is_done a = true ↔ ∀ item, item ∈ a → length item.2 ≤ 1.
Proof.
  unfold assignment_is_done, values. rewrite forallb_forall. split.
  - intros Hall item Hin.
    specialize (Hall item.2). rewrite <- list_elem_of_In in Hall.
    specialize (Hall (list_elem_of_fmap_2 snd _ _ Hin)).
    apply negb_true_iff, bool_decide_eq_false in Hall. lia.
  - intros Hall vals Hin. rewrite <- list_elem_of_In in Hin.
    apply list_elem_of_fmap in Hin as (item & -> & Hin).
    apply negb_true_iff, bool_decide_eq_false. specialize (Hall item Hin). lia.
Qed.

Lemma assignment_is_done_narrows a' a :
  narrows a' a → assignment_is_done a = true → assignment_is_done a' = true.
Proof.
  rewrite !assignment_is_done_spec. intros Hn Hall item' Hin.
  apply list_elem_of_lookup in Hin as [n Hn'].
  destruct (Forall2_lookup_l _ _ _ _ _ Hn Hn') as (item & Hitem & _ & Hsub).
  apply sublist_length in Hsub.
  specialize (Hall item (list_elem_of_lookup_2 _ _ _ Hitem)). lia.
Qed.

(** One pass of the loop of [inference]. *)
Lemma inference_loop_pass self fuel a (q : list (arc Var)) :
  inference_loop pop_index self (S fuel) a q
  = match set_pop pop_index q with
    | None => Ok (a, true)
    | Some ((xi, xj), queue_set) =>
        '(a, revised) ← revise self a xi xj;
        if revised : bool then
          di ← subscript a xi;
          if decide (length di = 0) then Ok (a, false)
          else
            neighbors ← get_all_neighboring_arcs self xi;
            inference_loop pop_index self fuel a (foldl set_add queue_set neighbors)
        else inference_loop pop_index self fuel a queue_set
    end.
Proof. done. Qed.

(** A finished assignment is returned as it is, by the first call. *)
Lemma backtrack_done self a :
  assignment_is_done a = true →
  backtrack pop_index self a
  = (Ok (Found a),
     with_counters self (mkCounters (S (backtrack_called self)) (backtrack_failed self))).
Proof. intros Hdone. unfold backtrack. simpl. by rewrite Hdone. Qed.

(** [backtracking_search] calls [backtrack] whatever the propagation
    returned. *)
Lemma backtracking_search_unfold self a consistent :
  inference pop_index self (deepcopy (domains self)) (get_all_arcs self) = Ok (a, consistent) →
  backtracking_search pop_index self = backtrack pop_index self a.
Proof. intros Hinf. unfold backtracking_search. by rewrite Hinf. Qed.

(** When every declared domain holds at most one value and the propagation
    fails, the search returns the assignment that the propagation left, in
    which a variable has no value. *)
Lemma backtracking_search_failed_preprocessing self a :
  assignment_is_done (domains self) = true →
  inference pop_index self (deepcopy (domains self)) (get_all_arcs self) = Ok (a, false) →
  backtracking_search pop_index self
  = (Ok (Found a),
     with_counters self (mkCounters (S (backtrack_called self)) (backtrack_failed self))) ∧
  ∃ var, dget var a = Some [].
Proof.
  intros Hdone Hinf. split; [|by eapply inference_false].
  rewrite (backtracking_search_unfold _ _ _ Hinf). apply backtrack_done.
  eapply assignment_is_done_narrows; [|done]. by eapply inference_Ok.
Qed.
End search_facts.

(** The instances are what the interface builds. *)
Lemma two_fives_built :
  add_all_different_constraint ["0-0"; "0-1"]
    (add_variable "0-1" ["5"] (add_variable "0-0" ["5"] init)) = Ok Examples.two_fives.
Proof. reflexivity. Qed.

Lemma three_fives_built :
  add_all_different_constraint ["0-0"; "0-1"; "0-2"]
    (add_variable "0-2" ["5"] (add_variable "0-1" ["5"] (add_variable "0-0" ["5"] init)))
  = Ok Examples.three_fives.
Proof. reflexivity. Qed.

Lemma three_colours_built :
  add_all_different_constraint ["A"; "B"; "C"]
    (add_variable "C" ["r"; "g"; "b"] (add_variable "B" ["r"; "g"; "b"]
       (add_variable "A" ["r"; "g"; "b"] init)))
  = Ok Examples.three_colours.
Proof. reflexivity. Qed.

(** The propagation over the row of two fives fails under every policy: the
    arc that is popped first empties the domain of its first variable. *)
Lemma two_fives_inference (pop_index : list (arc string) → nat) :
  ∃ a,
    inference pop_index Examples.two_fives (deepcopy (domains Examples.two_fives))
      (get_all_arcs Examples.two_fives) = Ok (a, false) ∧
    (a = [("0-0", []); ("0-1", ["5"])] ∨ a = [("0-0", ["5"]); ("0-1", [])]).
Proof.
  unfold inference.
  change (set_of_list (get_all_arcs Examples.two_fives))
    with [("0-0", "0-1"); ("0-1", "0-0")].
  destruct (set_pop_cases pop_index [("0-0", "0-1"); ("0-1", "0-0")])
    as (k & t & Hk & Hlook & Hpop); [done|].
  change (inference_budget _ _ _) with 9.
  rewrite inference_loop_pass, Hpop.
  destruct k as [|[|k]]; simpl in Hlook, Hk; [| |lia]; simplify_eq.
  - exists [("0-0", []); ("0-1", ["5"])]. split; [vm_compute; reflexivity | by left].
  - exists [("0-0", ["5"]); ("0-1", [])]. split; [vm_compute; reflexivity | by right].
Qed.

(** On three fives too: whichever arc is popped first, one cell is emptied
    and the two others keep their 5. *)
Lemma three_fives_inference (pop_index : list (arc string) → nat) :
  ∃ a,
    inference pop_index Examples.three_fives (deepcopy (domains Examples.three_fives))
      (get_all_arcs Examples.three_fives) = Ok (a, false) ∧
    (a = [("0-0", []); ("0-1", ["5"]); ("0-2", ["5"])] ∨
     a = [("0-0", ["5"]); ("0-1", []); ("0-2", ["5"])] ∨
     a = [("0-0", ["5"]); ("0-1", ["5"]); ("0-2", [])]).
Proof.
  unfold inference.
  change (set_of_list (get_all_arcs Examples.three_fives))
    with [("0-0", "0-1"); ("0-0", "0-2"); ("0-1", "0-0"); ("0-1", "0-2");
          ("0-2", "0-0"); ("0-2", "0-1")].
  destruct (set_pop_cases pop_index
              [("0-0", "0-1"); ("0-0", "0-2"); ("0-1", "0-0"); ("0-1", "0-2");
               ("0-2", "0-0"); ("0-2", "0-1")])
    as (k & t & Hk & Hlook & Hpop); [done|].
  change (inference_budget _ _ _) with 28.
  rewrite inference_loop_pass, Hpop.
  destruct k as [|[|[|[|[|[|k]]]]]]; simpl in Hlook, Hk; try lia; simplify_eq.
  1, 2: exists [("0-0", []); ("0-1", ["5"]); ("0-2", ["5"])].
  3, 4: exists [("0-0", ["5"]); ("0-1", []); ("0-2", ["5"])].
  5, 6: exists [("0-0", ["5"]); ("0-1", ["5"]); ("0-2", [])].
  all: split; [vm_compute; reflexivity | auto].
Qed.

(** The ignored failure also breaks soundness.  On the row of three fives,
    under every policy of [set.pop], [backtracking_search] returns an
    assignment in which two cells are decided, both with the value 5,
    although the relation registered between them holds no pair. *)
Theorem backtracking_search_returns_unsound_assignment (pop_index : list (arc string) → nat) :
  ∃ a self',
    backtracking_search pop_index Examples.three_fives = (Ok (Found a), self') ∧
    ¬ sound Examples.three_fives a.
Proof.
  destruct (three_fives_inference pop_index) as (a & Hinf & Ha).
  destruct (backtracking_search_failed_preprocessing pop_index Examples.three_fives a)
    as [Hsearch _]; [done..|].
  exists a. eexists. split; [exact Hsearch|].
  intros Hsound.
  assert (∃ i j, relation Examples.three_fives i j = Some [] ∧ decided a i "5" ∧ decided a j "5")
    as (i & j & Hrel & Hi & Hj).
  { destruct Ha as [-> | [-> | ->]].
    - by exists "0-1", "0-2".
    - by exists "0-0", "0-2".
    - by exists "0-0", "0-1". }
  specialize (Hsound i j [] "5" "5" Hrel Hi Hj). by apply elem_of_nil in Hsound.
Qed.

(** C10.  [assignment_is_done] holds exactly when no domain has more than
    one value, so also when a domain is empty; [backtrack] then returns the
    assignment it was given; and [backtracking_search] returns an assignment
    with an empty domain whenever the declared domains hold at most one value
    each and the preprocessing fails, as on the row of two fives. *)
Theorem assignment_is_done_accepts_empty_domain (pop_index : list (arc string) → nat) :
  (∀ a : assignment string string,
     assignment_is_done a = true ↔ ∀ item, item ∈ a → ¬ 1 < length item.2) ∧
  assignment_is_done [("0-0", @nil string); ("0-1", ["5"])] = true ∧
  (backtrack pop_index Examples.two_fives [("0-0", []); ("0-1", ["5"])]).1
    = Ok (Found [("0-0", []); ("0-1", ["5"])]) ∧
  (∀ (self : CSP string string) a,
     assignment_is_done (domains self) = true →
     inference pop_index self (deepcopy (domains self)) (get_all_arcs self) = Ok (a, false) →
     (backtracking_search pop_index self).1 = Ok (Found a) ∧ ∃ var, dget var a = Some []) ∧
  ∃ a var,
    (backtracking_search pop_index Examples.two_fives).1 = Ok (Found a) ∧
    dget var a = Some [].
Proof.
  split; [|split; [|split; [|split]]].
  - intros a. rewrite assignment_is_done_spec. split; intros Hall item Hin;
      specialize (Hall item Hin); lia.
  - reflexivity.
  - reflexivity.
  - intros self a Hdone Hinf.
    destruct (backtracking_search_failed_preprocessing pop_index self a Hdone Hinf)
      as [-> Hempty].
    done.
  - destruct (two_fives_inference pop_index) as (a & Hinf & Ha).
    destruct (backtracking_search_failed_preprocessing pop_index Examples.two_fives a)
      as [-> (var & Hvar)]; [done..|].
    by exists a, var.
Qed.

Section monotonicity.
Context {Var Val : Type} `{EqDecision Var} `{EqDecision Val}.
Variable pop_index : list (arc Var) → nat.
Implicit Types (self : CSP Var Val) (a : assignment Var Val) (var : Var) (cnt : counters).

(** C5.  [revise], [inference], a pass of the loop of [backtrack] and
    [backtrack] itself leave an assignment with the same variables whose
    domains are sub-sequences of the domains they were given, so every
    assignment that the search visits, and the one it returns, has for each
    variable a sub-sequence of the declared domain; in particular no domain
    gains a value or grows. *)
Theorem domains_only_narrow self a :
  (∀ i j a' revised, revise self a i j = Ok (a', revised) → narrows a' a) ∧
  (∀ queue a' consistent,
     inference pop_index self a queue = Ok (a', consistent) → narrows a' a) ∧
  (∀ var vals value a' consistent,
     order_domain_values var a = Ok vals → value ∈ vals →
     branch pop_index self a var value = Ok (a', consistent) → narrows a' a) ∧
  (∀ a', visits pop_index self a a' → narrows a' a) ∧
  (∀ depth cnt a' cnt',
     backtrack_at pop_index self depth a cnt = (Ok (Found a'), cnt') → narrows a' a) ∧
  (∀ a0 consistent a',
     inference pop_index self (deepcopy (domains self)) (get_all_arcs self)
       = Ok (a0, consistent) →
     visits pop_index self a0 a' → narrows a' (domains self)) ∧
  (∀ a' self',
     backtracking_search pop_index self = (Ok (Found a'), self') →
     narrows a' (domains self)) ∧
  (∀ a', narrows a' a →
     keys a' = keys a ∧
     ∀ var dom', dget var a' = Some dom' →
       ∃ dom, dget var a = Some dom ∧ dom' `sublist_of` dom ∧ dom' ⊆ dom ∧
              length dom' ≤ length dom).
Proof.
  split; [|split; [|split; [|split; [|split; [|split; [|split]]]]]].
  - intros i j a' revised Hrev. by apply revise_Ok in Hrev as [? _].
  - intros queue a' consistent. apply inference_Ok.
  - intros var vals value a' consistent Hvals%subscript_Ok Hin Hbranch.
    by eapply (branch_Ok pop_index self a var vals value a' consistent Hvals Hbranch).
  - apply visits_narrows.
  - intros depth cnt a' cnt'. apply backtrack_at_narrows.
  - intros a0 consistent a' Hinf%inference_Ok Hvisits%visits_narrows.
    by eapply narrows_trans.
  - intros a' self'. unfold backtracking_search.
    destruct (inference pop_index self (deepcopy (domains self)) (get_all_arcs self))
      as [[a0 consistent]| |] eqn:Hinf; [|done..].
    unfold backtrack.
    destruct (backtrack_at pop_index self (S (undecided a0)) a0 (counters_of self))
      as [result cnt] eqn:Hrun.
    intros [= -> <-]. apply inference_Ok in Hinf. apply backtrack_at_narrows in Hrun.
    by eapply narrows_trans.
  - intros a' Hn. split; [by apply narrows_keys|].
    intros var dom' Hdom'.
    destruct (narrows_dget a' a var dom' Hn Hdom') as (dom & Hdom & Hsub).
    exists dom. split; [done|]. split; [done|].
    split; [by apply sublist_subseteq | by apply sublist_length].
Qed.
End monotonicity.

Lemma domains_only_narrow_witness :
  backtracking_search Examples.pop_first Examples.three_colours
  = (Ok (Found [("A", ["r"]); ("B", ["g"]); ("C", ["b"])]),
     with_counters Examples.three_colours (mkCounters 3 0)) ∧
  narrows [("A", ["r"]); ("B", ["g"]); ("C", ["b"])] (domains Examples.three_colours).
Proof.
  split; [vm_compute; reflexivity|].
  destruct (domains_only_narrow Examples.pop_first Examples.three_colours
              (domains Examples.three_colours)) as (_ & _ & _ & _ & _ & _ & Hsearch & _).
  eapply Hsearch. vm_compute. reflexivity.
Defined.

Lemma backtrack_terminates_within_depth_witness :
  NoDup (keys (domains Examples.three_colours)) ∧
  terminates (backtrack Examples.pop_first Examples.three_colours
                (domains Examples.three_colours)).1.
Proof.
  assert (NoDup (keys (domains Examples.three_colours))) as Hnd
    by (apply (bool_decide_unpack _); vm_compute; exact I).
  split; [exact Hnd|].
  exact (proj1 (proj2 (backtrack_terminates_within_depth Examples.pop_first
                         Examples.three_colours (domains Examples.three_colours) Hnd))).
Defined.

(** ** The search over the store *)

Section store_facts.
Context {Var Val : Type} `{EqDecision Var} `{EqDecision Val}.
Variable pop_index : list (arc Var) → nat.
Variable self : CSP Var Val.
Implicit Types (h : Store.heap (Val := Val) (Var := Var)) (d l c : Store.loc) (i j var : Var).

Lemma dget_Some_values {K V} `{EqDecision K} (dt : dict K V) k v :
  dget k dt = Some v → v ∈ values dt.
Proof. intros Hin%dget_Some_elem_of. by apply (list_elem_of_fmap_2 snd) in Hin. Qed.

Lemma preserved_refl h : preserved h h.
Proof. by split. Qed.

Lemma preserved_trans h1 h2 h3 : preserved h1 h2 → preserved h2 h3 → preserved h1 h3.
Proof. intros [Hl12 Hd12] [Hl23 Hd23]. split; eauto. Qed.

(** [revise] writes the list of [i] in the dictionary it is given, and no
    other object. *)
Lemma store_revise_loop_frame i j fuel : ∀ idx d h revised r h',
  Store.revise_loop self i j fuel idx d h revised = (r, h') →
  Store.dicts h' = Store.dicts h ∧
  length (Store.lists h') = length (Store.lists h) ∧
  ∀ l, l ∉ values (Store.read_dict h d) → Store.lists h' !! l = Store.lists h !! l.
Proof.
  induction fuel as [|fuel IH]; intros idx d h revised r h'; simpl;
    [by intros [= <- <-]|].
  destruct (subscript (Store.read_dict h d) i) as [li| |] eqn:Hli; simpl;
    [|by intros [= <- <-]..].
  destruct (Store.read_list h li !! idx) as [x|]; [|by intros [= <- <-]].
  destruct (subscript (Store.read_dict h d) j) as [lj| |]; simpl; [|by intros [= <- <-]..].
  destruct (any_support self i j x (Store.read_list h lj)) as [[|]| |]; simpl;
    [by apply IH| |by intros [= <- <-]..].
  destruct (list_remove x (Store.read_list h li)) as [di'|]; [|by intros [= <- <-]].
  intros (Hd & Hlen & Hother)%IH. simpl in *.
  split; [done|]. split; [by rewrite Hlen, length_insert|].
  intros l Hl. rewrite Hother by done. apply list_lookup_insert_ne.
  intros <-. apply Hl. eapply dget_Some_values. by apply subscript_Ok.
Qed.

Lemma store_revise_frame h d i j r h' :
  Store.revise self h d i j = (r, h') →
  Store.dicts h' = Store.dicts h ∧
  length (Store.lists h') = length (Store.lists h) ∧
  ∀ l, l ∉ values (Store.read_dict h d) → Store.lists h' !! l = Store.lists h !! l.
Proof.
  unfold Store.revise.
  destruct (subscript (Store.read_dict h d) i) as [li| |]; cbn [Store.reading];
    [|by intros [= <- <-]..].
  apply store_revise_loop_frame.
Qed.

Lemma store_inference_loop_frame fuel : ∀ h d q r h',
  Store.inference_loop pop_index self fuel h d q = (r, h') →
  Store.dicts h' = Store.dicts h ∧
  length (Store.lists h') = length (Store.lists h) ∧
  ∀ l, l ∉ values (Store.read_dict h d) → Store.lists h' !! l = Store.lists h !! l.
Proof.
  induction fuel as [|fuel IH]; intros h d q r h'; simpl; [by intros [= <- <-]|].
  destruct (set_pop pop_index q) as [[[xi xj] q']|]; [|by intros [= <- <-]].
  destruct (Store.revise self h d xi xj) as [rev h1] eqn:Hrev.
  apply store_revise_frame in Hrev as (Hd1 & Hlen1 & Hother1).
  assert (Store.read_dict h1 d = Store.read_dict h d) as Hread
    by (unfold Store.read_dict; by rewrite Hd1).
  assert (∀ q1 res, Store.inference_loop pop_index self fuel h1 d q1 = res →
            Store.dicts res.2 = Store.dicts h ∧
            length (Store.lists res.2) = length (Store.lists h) ∧
            ∀ l, l ∉ values (Store.read_dict h d) →
              Store.lists res.2 !! l = Store.lists h !! l) as Hnext.
  { intros q1 [r1 h2] (Hd2 & Hlen2 & Hother2)%IH. simpl. rewrite Hread in Hother2.
    split; [congruence|]. split; [congruence|].
    intros l Hl. by rewrite Hother2, Hother1. }
  destruct rev as [[|]| |]; try (by intros [= <- <-]).
  - destruct (subscript (Store.read_dict h1 d) xi) as [li| |]; simpl;
      [|by intros [= <- <-]..].
    case_decide; [by intros [= <- <-]|].
    destruct (get_all_neighboring_arcs self xi) as [ns| |]; simpl; [|by intros [= <- <-]..].
    intros Hloop. by apply (Hnext _ _ Hloop).
  - intros Hloop. by apply (Hnext _ _ Hloop).
Qed.

Lemma store_inference_frame h d queue r h' :
  Store.inference pop_index self h d queue = (r, h') →
  Store.dicts h' = Store.dicts h ∧
  length (Store.lists h') = length (Store.lists h) ∧
  ∀ l, l ∉ values (Store.read_dict h d) → Store.lists h' !! l = Store.lists h !! l.
Proof. apply store_inference_loop_frame. Qed.

(** [copy.deepcopy] allocates: the lists of the copy are new objects, and
    hold what the lists of the original hold. *)
Lemma store_deepcopy_items items : ∀ (memo : dict Store.loc Store.loc) h items' h' n0,
  Store.deepcopy_items items memo h = (items', h') →
  n0 ≤ length (Store.lists h) →
  (∀ l', l' ∈ values memo → n0 ≤ l') →
  Store.dicts h' = Store.dicts h ∧
  (∃ new, Store.lists h' = Store.lists h ++ new) ∧
  (∀ l', l' ∈ values items' → n0 ≤ l').
Proof.
  induction items as [|[k l] items IH]; intros memo h items' h' n0; simpl.
  - intros [= <- <-] _ _. split; [done|]. split; [by exists []; rewrite app_nil_r|].
    by intros l' ?%elem_of_nil.
  - destruct (dget l memo) as [lm|] eqn:Hmemo.
    + destruct (Store.deepcopy_items items memo h) as [rest' h1] eqn:Hrest.
      simpl. intros [= <- <-] Hn0 Hmemo_ge.
      destruct (IH _ _ _ _ n0 Hrest Hn0 Hmemo_ge) as (Hd & Hnew & Hge).
      split; [done|]. split; [done|].
      intros l' [->|Hin]%elem_of_cons; [|by auto].
      apply Hmemo_ge. by eapply dget_Some_values.
    + simpl. destruct (Store.deepcopy_items items _ _) as [rest' h1] eqn:Hrest.
      intros [= <- <-] Hn0 Hmemo_ge.
      destruct (IH _ _ _ _ n0 Hrest) as (Hd & [new Hnew] & Hge).
      { simpl. rewrite length_app. lia. }
      { intros l' [->|Hin]%elem_of_cons; [done|by auto]. }
      simpl in *. split; [done|].
      split; [exists ([Store.read_list h l] ++ new); by rewrite Hnew, <- app_assoc|].
      intros l' [->|Hin]%elem_of_cons; [done|by auto].
Qed.

Lemma store_deepcopy h d c h' :
  Store.deepcopy h d = (c, h') →
  c = length (Store.dicts h) ∧
  (∃ items, Store.dicts h' = Store.dicts h ++ [items] ∧
            ∀ l', l' ∈ values items → length (Store.lists h) ≤ l') ∧
  (∃ new, Store.lists h' = Store.lists h ++ new).
Proof.
  unfold Store.deepcopy.
  destruct (Store.deepcopy_items (Store.read_dict h d) [] h) as [items h1] eqn:Hitems.
  intros [= <- <-].
  destruct (store_deepcopy_items _ _ _ _ _ (length (Store.lists h)) Hitems)
    as (Hd & Hnew & Hge); [done | by intros l' ?%elem_of_nil |].
  simpl. split; [by rewrite Hd|]. split; [|done].
  exists items. by rewrite Hd.
Qed.
End store_facts.

Section store_isolation.
Context {Var Val : Type} `{EqDecision Var} `{EqDecision Val}.
Variable pop_index : list (arc Var) → nat.
Variable self : CSP Var Val.
Implicit Types (h : Store.heap (Val := Val) (Var := Var)) (d l c : Store.loc) (i j var : Var).

Lemma values_dset {K V} `{EqDecision K} (dt : dict K V) k v v' :
  v' ∈ values (dset k v dt) → v' = v ∨ v' ∈ values dt.
Proof.
  unfold values. induction dt as [|[k0 v0] dt IH]; csimpl.
  - intros ->%list_elem_of_singleton. by left.
  - case_decide; csimpl; intros [->|Hin]%elem_of_cons.
    + by left.
    + right. by right.
    + right. by left.
    + destruct (IH Hin); [by left | right; by right].
Qed.

Lemma preserved_view h h' d : preserved h h' → allocated h d → Store.view h' d = Store.view h d.
Proof.
  intros [Hlists Hdicts] [[items Hitems] Hrefs].
  unfold Store.view, Store.read_dict, Store.read_list in *.
  rewrite (list_lookup_total_correct _ _ _ Hitems) in Hrefs |- *.
  rewrite (list_lookup_total_correct _ _ _ (Hdicts _ _ Hitems)).
  apply list_fmap_ext. intros n item Hitem. f_equal.
  destruct (Hrefs item.2) as [v Hv].
  { apply (list_elem_of_fmap_2 snd). by eapply list_elem_of_lookup_2. }
  by rewrite (list_lookup_total_correct _ _ _ Hv),
             (list_lookup_total_correct _ _ _ (Hlists _ _ Hv)).
Qed.

(** A pass of the loop works on a copy: the objects of the caller are left
    as they are, and the dictionary handed to the recursive call and its
    lists are new. *)
Lemma store_branch_isolated h d var value r h' :
  Store.branch pop_index self h d var value = (r, h') →
  preserved h h' ∧ ∀ c consistent, r = Ok (c, consistent) → fresh_copy h h' c.
Proof.
  unfold Store.branch.
  destruct (Store.deepcopy h d) as [c h1] eqn:Hcopy.
  apply store_deepcopy in Hcopy as (-> & (items & Hdicts1 & Hge) & (new & Hlists1)).
  simpl.
  set (l := length (Store.lists h1)).
  set (h2 := Store.mkHeap (Store.lists h1 ++ [[value]]) (Store.dicts h1)).
  set (h3 := Store.write_dict h2 (length (Store.dicts h))
               (dset var l (Store.read_dict h2 (length (Store.dicts h))))).
  assert (Store.read_dict h2 (length (Store.dicts h)) = items) as Hread2.
  { unfold Store.read_dict, h2. simpl. rewrite Hdicts1.
    apply list_lookup_total_correct. by rewrite lookup_app_r, Nat.sub_diag. }
  assert (Store.read_dict h3 (length (Store.dicts h)) = dset var l items) as Hread3.
  { unfold Store.read_dict, h3, Store.write_dict. simpl. rewrite Hread2.
    apply list_lookup_total_correct, list_lookup_insert_eq.
    rewrite Hdicts1, length_app. simpl. lia. }
  assert (∀ l', l' ∈ values (Store.read_dict h3 (length (Store.dicts h))) →
            length (Store.lists h) ≤ l') as Hge3.
  { intros l' Hin. rewrite Hread3 in Hin. apply values_dset in Hin as [->|Hin]; [|by auto].
    unfold l. rewrite Hlists1, length_app. lia. }
  assert (preserved h h3) as Hpres3.
  { split; simpl.
    - intros l' v Hv. rewrite Hlists1, <- app_assoc. by apply lookup_app_l_Some.
    - intros d' v Hv. apply lookup_lt_Some in Hv as Hlt.
      rewrite list_lookup_insert_ne by lia. rewrite Hdicts1. by apply lookup_app_l_Some. }
  assert (∀ ns res,
            Store.inference pop_index self h3 (length (Store.dicts h)) ns = res →
            preserved h res.2 ∧ fresh_copy h res.2 (length (Store.dicts h))) as Hinf.
  { intros ns [r4 h4] (Hd4 & Hlen4 & Hother4)%store_inference_frame. simpl.
    assert (Store.read_dict h4 (length (Store.dicts h)) = dset var l items) as Hread4
      by (unfold Store.read_dict in *; by rewrite Hd4).
    split; [split|split].
    - intros l' v Hv. apply lookup_lt_Some in Hv as Hlt.
      rewrite Hother4; [by apply Hpres3|]. intros Hin%Hge3. lia.
    - intros d' v Hv. rewrite Hd4. by apply Hpres3.
    - apply lookup_ge_None. lia.
    - intros l' Hin. apply lookup_ge_None, Hge3. by rewrite Hread3, <- Hread4. }
  destruct (get_all_neighboring_arcs self var) as [ns| |]; cbn [Store.reading];
    [|by intros [= <- <-]..].
  destruct (Store.inference pop_index self h3 (length (Store.dicts h)) ns)
    as [r4 h4] eqn:Hrun.
  destruct (Hinf _ _ Hrun) as [Hpres4 Hfresh4]. simpl in *.
  destruct r4 as [consistent| |]; intros [= <- <-]; (split; [done|]); try done.
  by intros c consistent' [= <- <-].
Qed.

Lemma store_candidates_loop_preserved recurse d var lv :
  (∀ h c cnt res, recurse h c cnt = res → preserved h res.1.2) →
  ∀ fuel idx h cnt res,
    Store.candidates_loop pop_index self recurse d var lv fuel idx h cnt = res →
    preserved h res.1.2.
Proof.
  intros Hrec. induction fuel as [|fuel IH]; intros idx h cnt res; simpl;
    [intros <-; apply preserved_refl|].
  destruct (Store.read_list h lv !! idx) as [value|]; [|intros <-; apply preserved_refl].
  destruct (Store.branch pop_index self h d var value) as [rb h1] eqn:Hbranch.
  apply store_branch_isolated in Hbranch as [Hpres1 _].
  destruct rb as [[c [|]]| |]; try (by intros <-).
  - destruct (recurse h1 c cnt) as [[rr h2] cnt2] eqn:Hcall.
    apply Hrec in Hcall as Hpres2. simpl in Hpres2.
    assert (preserved h h2) as Hpres by (by eapply preserved_trans).
    destruct rr as [result| |]; try (by intros <-).
    destruct (Store.truthy h2 result); [by intros <-|].
    intros Hloop%IH. by eapply preserved_trans.
  - intros Hloop%IH. by eapply preserved_trans.
Qed.

Lemma store_backtrack_at_preserved depth : ∀ h d cnt res,
  Store.backtrack_at pop_index self depth h d cnt = res → preserved h res.1.2.
Proof.
  induction depth as [|depth IH]; intros h d cnt res; cbn [Store.backtrack_at];
    [intros <-; apply preserved_refl|].
  destruct (assignment_is_done (Store.view h d)); [intros <-; apply preserved_refl|].
  destruct (select_unassigned_variable (Store.view h d)) as [var| |];
    try (intros <-; apply preserved_refl).
  destruct (subscript (Store.read_dict h d) var) as [lv| |];
    try (intros <-; apply preserved_refl).
  by apply store_candidates_loop_preserved.
Qed.

Lemma domains_heap_view : Store.view (Store.domains_heap self) Store.domains_ref = domains self.
Proof.
  unfold Store.view, Store.read_dict, Store.read_list, Store.domains_heap, Store.domains_ref.
  simpl. apply list_eq. intros n.
  rewrite list_lookup_fmap, list_lookup_imap.
  destruct (domains self !! n) as [[k v]|] eqn:Hn; simpl; [|done].
  do 2 f_equal. apply list_lookup_total_correct.
  unfold values. by rewrite list_lookup_fmap, Hn.
Qed.

Lemma domains_heap_allocated : allocated (Store.domains_heap self) Store.domains_ref.
Proof.
  split; [by eexists|]. unfold Store.read_dict, Store.domains_heap, Store.domains_ref.
  simpl. intros l (item & -> & Hin)%list_elem_of_fmap.
  apply list_elem_of_lookup in Hin as [n Hn]. rewrite list_lookup_imap in Hn.
  destruct (domains self !! n) as [[k v]|] eqn:Hdn; simpl in Hn; [|done].
  simplify_eq. simpl. unfold values. rewrite list_lookup_fmap, Hdn. by eexists.
Qed.

(** C6.  Over the store of objects: a pass of the loop of [backtrack] leaves
    every object that the store held as it was, and the dictionary it hands
    to the recursive call is a new object whose lists are new objects; so a
    call of [backtrack], whatever it returns or raises, leaves every object
    that existed before it unchanged, and its caller reads in its own
    dictionary the domains it read before the call.  Likewise
    [backtracking_search] leaves [self.domains] as declared. *)
Theorem backtrack_leaves_caller_unchanged :
  (∀ h d var value r h',
     Store.branch pop_index self h d var value = (r, h') →
     preserved h h' ∧ ∀ c consistent, r = Ok (c, consistent) → fresh_copy h h' c) ∧
  (∀ depth h d cnt r h' cnt',
     Store.backtrack_at pop_index self depth h d cnt = (r, h', cnt') →
     preserved h h' ∧ ∀ d0, allocated h d0 → Store.view h' d0 = Store.view h d0) ∧
  (∀ r h' self',
     Store.backtracking_search pop_index self = (r, h', self') →
     preserved (Store.domains_heap self) h' ∧
     Store.view h' Store.domains_ref = domains self).
Proof.
  split; [|split].
  - apply store_branch_isolated.
  - intros depth h d cnt r h' cnt' Hrun.
    apply store_backtrack_at_preserved in Hrun as Hpres. simpl in Hpres.
    split; [done|]. intros d0. by apply preserved_view.
  - intros r h' self'. unfold Store.backtracking_search.
    destruct (Store.deepcopy (Store.domains_heap self) Store.domains_ref) as [c h1] eqn:Hcopy.
    apply store_deepcopy in Hcopy as (-> & (items & Hdicts1 & Hge) & (new & Hlists1)).
    assert (preserved (Store.domains_heap self) h1) as Hpres1.
    { split.
      - intros l v Hv. rewrite Hlists1. by apply lookup_app_l_Some.
      - intros d v Hv. rewrite Hdicts1. by apply lookup_app_l_Some. }
    destruct (Store.inference pop_index self h1 _ (get_all_arcs self)) as [ri h2] eqn:Hinf.
    apply store_inference_frame in Hinf as (Hd2 & Hlen2 & Hother2).
    assert (preserved (Store.domains_heap self) h2) as Hpres2.
    { split.
      - intros l v Hv. apply lookup_lt_Some in Hv as Hlt.
        rewrite Hother2; [by apply Hpres1|].
        unfold Store.read_dict. rewrite Hdicts1.
        erewrite list_lookup_total_correct; [|by rewrite lookup_app_r, Nat.sub_diag].
        intros Hin%Hge. lia.
      - intros d v Hv. rewrite Hd2. by apply Hpres1. }
    intros Hres.
    assert (preserved (Store.domains_heap self) h') as Hpres.
    { destruct ri as [consistent| |]; [|by simplify_eq..].
      unfold Store.backtrack in Hres.
      destruct (Store.backtrack_at pop_index self _ h2 _ (counters_of self))
        as [[rb h3] cnt3] eqn:Hrun.
      apply store_backtrack_at_preserved in Hrun. simpl in Hrun.
      simplify_eq. by eapply preserved_trans. }
    split; [done|].
    rewrite <- domains_heap_view. apply preserved_view; [done|].
    apply domains_heap_allocated.
Qed.
End store_isolation.

Lemma four_clique_built :
  add_all_different_constraint ["A"; "B"; "C"; "D"]
    (add_variable "D" ["r"; "g"; "b"] (add_variable "C" ["r"; "g"; "b"]
       (add_variable "B" ["r"; "g"; "b"] (add_variable "A" ["r"; "g"; "b"] init))))
  = Ok Examples.four_clique.
Proof. reflexivity. Qed.

(** On four mutually different variables over three colours every branch
    fails, three of them in a recursive call; the dictionary of the first
    call reads the same before and after. *)
Lemma backtrack_leaves_caller_unchanged_witness :
  let '(assignment, h) :=
    Store.deepcopy (Store.domains_heap Examples.four_clique) Store.domains_ref in
  ∃ h' cnt',
    Store.backtrack_at Examples.pop_first Examples.four_clique 5 h assignment (mkCounters 0 0)
      = (Ok Store.PyFalse, h', cnt') ∧
    cnt' = mkCounters 4 4 ∧
    allocated h assignment ∧
    Store.view h' assignment = Store.view h assignment.
Proof.
  destruct (Store.deepcopy (Store.domains_heap Examples.four_clique) Store.domains_ref)
    as [assignment h] eqn:Hcopy.
  vm_compute in Hcopy. injection Hcopy as <- <-.
  assert (allocated
            (Store.mkHeap [["r"; "g"; "b"]; ["r"; "g"; "b"]; ["r"; "g"; "b"]; ["r"; "g"; "b"];
                           ["r"; "g"; "b"]; ["r"; "g"; "b"]; ["r"; "g"; "b"]; ["r"; "g"; "b"]]
                          [[("A", 0); ("B", 1); ("C", 2); ("D", 3)];
                           [("A", 4); ("B", 5); ("C", 6); ("D", 7)]]) 1) as Halloc.
  { split; [eexists; reflexivity|]. intros l Hin. vm_compute in Hin.
    repeat (apply elem_of_cons in Hin as [->|Hin]; [eexists; reflexivity|]).
    apply elem_of_nil in Hin. destruct Hin. }
  match goal with
  | |- ∃ h' cnt', Store.backtrack_at ?p ?s ?n ?h ?d ?c = _ ∧ _ =>
      destruct (Store.backtrack_at p s n h d c) as [[r h'] cnt'] eqn:Hrun
  end.
  exists h', cnt'.
  split; [clear Halloc; vm_compute in Hrun; injection Hrun as <- _ _; reflexivity|].
  split; [clear Halloc; vm_compute in Hrun; injection Hrun as _ _ <-; reflexivity|].
  split; [exact Halloc|].
  exact (proj2 (proj1 (proj2 (backtrack_leaves_caller_unchanged
                                Examples.pop_first Examples.four_clique))
                  _ _ _ _ _ _ _ Hrun) 1 Halloc).
Defined.

(** ** Soundness on two-way stores *)

Section soundness.
Context {Var Val : Type} `{EqDecision Var} `{EqDecision Val}.
Variable pop_index : list (arc Var) → nat.
Variable self : CSP Var Val.
Hypothesis self_mutual : mutual self.
Implicit Types (a : assignment Var Val) (i j k var : Var) (x y : Val) (q : list (arc Var)).

Lemma revise_loop_other self0 i j fuel : ∀ idx a revised a' r k,
  revise_loop self0 i j fuel idx a revised = Ok (a', r) → k ≠ i → dget k a' = dget k a.
Proof.
  induction fuel as [|fuel IH]; intros idx a revised a' r k; simpl; [done|].
  unfold subscript. destruct (dget i a) as [di|] eqn:Hdi; simpl; [|done].
  destruct (di !! idx) as [x|]; [|by intros [= <- <-]].
  destruct (dget j a) as [dj|]; simpl; [|done].
  destruct (any_support self0 i j x dj) as [[|]| |]; simpl; [by apply IH| |done..].
  destruct (list_remove x di) as [di'|]; [|done].
  intros Hloop Hk. rewrite (IH _ _ _ _ _ _ Hloop Hk). by apply dget_dset_ne.
Qed.

Lemma revise_other a i j a' r k :
  revise self a i j = Ok (a', r) → k ≠ i → dget k a' = dget k a.
Proof.
  unfold revise, subscript. destruct (dget i a) as [di|]; step_bind; [|done].
  apply revise_loop_other.
Qed.

(** An arc between two decided variables that [revise] leaves alone holds
    their pair. *)
Lemma revise_decided a i j a' cij x y :
  revise self a i j = Ok (a', false) →
  relation self i j = Some cij → decided a i x → decided a j y → (x, y) ∈ cij.
Proof.
  unfold revise, decided, relation, subscript. intros Hrev Hrel Hi Hj.
  rewrite Hi in Hrev. step_bind. simpl in Hrev.
  unfold subscript in Hrev. rewrite Hi, Hj in Hrev. simpl in Hrev.
  unfold subscript in Hrev.
  destruct (dget i (constraints self)) as [ci|]; simpl in *; [|done].
  rewrite Hrel in Hrev. simpl in Hrev. rewrite orb_false_r in Hrev.
  destruct (bool_decide ((x, y) ∈ cij)) eqn:Hin; [by apply bool_decide_eq_true in Hin|].
  rewrite decide_True in Hrev by done. rewrite dget_dset_eq in Hrev. by simpl in Hrev.
Qed.

Lemma set_pop_elem_of q t q' u :
  set_pop pop_index q = Some (t, q') → u ∈ q → u = t ∨ u ∈ q'.
Proof.
  unfold set_pop. destruct (q !! (pop_index q `mod` length q)) as [t0|] eqn:Hk; [|done].
  simpl. intros [= <- <-]. rewrite <- (take_drop_middle _ _ _ Hk) at 1.
  rewrite delete_take_drop, !elem_of_app, elem_of_cons. tauto.
Qed.

Lemma elem_of_set_add q t u : u ∈ set_add q t ↔ u ∈ q ∨ u = t.
Proof using Type.
  clear. unfold set_add. case_decide as Hin.
  - split; [by left|]. intros [Hu| ->]; [exact Hu | exact Hin].
  - rewrite elem_of_app, list_elem_of_singleton. reflexivity.
Qed.

Lemma elem_of_foldl_set_add ns : ∀ q u, u ∈ foldl set_add q ns ↔ u ∈ q ∨ u ∈ ns.
Proof using Type.
  clear. induction ns as [|t ns IH]; intros q u; simpl.
  - rewrite elem_of_nil. split; [by left | by intros [?|[]]].
  - rewrite IH, elem_of_set_add, elem_of_cons.
    split; [intros [[?|?]|?] | intros [?|[?|?]]]; auto.
Qed.

Lemma neighbors_of_registered xi k ns :
  get_all_neighboring_arcs self xi = Ok ns → registered self xi k → (k, xi) ∈ ns.
Proof.
  unfold get_all_neighboring_arcs, subscript.
  destruct (dget xi (constraints self)) as [cv|] eqn:Hcv; step_bind; [|done].
  intros [= <-] Hreg. apply (registered_keys self xi k cv Hcv) in Hreg.
  by apply (list_elem_of_fmap_2 (λ i, (i, xi))).
Qed.

(** The arcs that are queued when the domain of [xi] changes cover every
    registered arc that [xi] is part of. *)
Lemma neighbors_cover xi ns i j cij :
  get_all_neighboring_arcs self xi = Ok ns →
  relation self i j = Some cij → i = xi ∨ j = xi → (i, j) ∈ ns ∨ (j, i) ∈ ns.
Proof using self_mutual.
  intros Hns Hrel [-> | ->].
  - right. apply (neighbors_of_registered _ _ _ Hns). by eexists.
  - left. apply (neighbors_of_registered _ _ _ Hns).
    destruct (self_mutual _ _ _ Hrel) as (cji & Hrev & _). by eexists.
Qed.

Lemma inference_loop_pending fuel : ∀ a q a',
  inference_loop pop_index self fuel a q = Ok (a', true) → pending self a q →
  pending self a' [].
Proof using self_mutual.
  induction fuel as [|fuel IH]; intros a q a'; simpl; [done|].
  destruct (set_pop pop_index q) as [[[xi xj] q']|] eqn:Hpop.
  - destruct (revise self a xi xj) as [[a1 revised]| |] eqn:Hrev; step_bind; [|done..].
    destruct revised.
    + unfold subscript. destruct (dget xi a1) as [di|]; step_bind; [|done].
      case_decide; [done|].
      destruct (get_all_neighboring_arcs self xi) as [ns| |] eqn:Hns; step_bind; [|done..].
      intros Hloop Hpend. apply (IH _ _ _ Hloop).
      intros i j cij x y Hrel Hi Hj Hout. rewrite !elem_of_foldl_set_add.
      destruct (decide (i = xi ∨ j = xi)) as [Hxi|Hxi].
      { destruct (neighbors_cover xi ns i j cij Hns Hrel Hxi); tauto. }
      unfold decided in Hi, Hj.
      rewrite (revise_other _ _ _ _ _ _ Hrev) in Hi by tauto.
      rewrite (revise_other _ _ _ _ _ _ Hrev) in Hj by tauto.
      destruct (Hpend i j cij x y Hrel Hi Hj Hout) as [Hq|Hq];
        apply (set_pop_elem_of _ _ _ _ Hpop) in Hq as [Heq|Hq]; simplify_eq; tauto.
    + intros Hloop Hpend. apply (IH _ _ _ Hloop).
      pose proof (revise_Ok self a xi xj a1 false Hrev) as (_ & Hsame & _).
      specialize (Hsame eq_refl). subst a1.
      intros i j cij x y Hrel Hi Hj Hout.
      destruct (Hpend i j cij x y Hrel Hi Hj Hout) as [Hq|Hq];
        apply (set_pop_elem_of _ _ _ _ Hpop) in Hq as [Heq|Hq]; simplify_eq; auto.
      * destruct Hout. by eapply revise_decided.
      * destruct (self_mutual _ _ _ Hrel) as (cji & Hrel' & Hsym).
        destruct Hout. apply Hsym. by eapply revise_decided.
  - intros [= <-] Hpend. by rewrite (set_pop_None _ _ Hpop) in Hpend.
Qed.

Lemma inference_pending a queue a' :
  inference pop_index self a queue = Ok (a', true) →
  pending self a queue → pending self a' [].
Proof using self_mutual.
  intros Hinf Hpend. apply (inference_loop_pending _ _ _ _ Hinf).
  intros i j cij x y Hrel Hi Hj Hout. unfold set_of_list. rewrite !elem_of_remove_dups.
  by eapply Hpend.
Qed.

Lemma branch_pending a var value a' :
  branch pop_index self a var value = Ok (a', true) →
  pending self a [] → pending self a' [].
Proof using self_mutual.
  unfold branch, deepcopy. intros Hbranch Hpend.
  destruct (get_all_neighboring_arcs self var) as [ns| |] eqn:Hns; step_bind; [|done..].
  apply (inference_pending _ _ _ Hbranch).
  intros i j cij x y Hrel Hi Hj Hout.
  destruct (decide (i = var ∨ j = var)) as [Hvar|Hvar].
  { by eapply neighbors_cover. }
  unfold decided in Hi, Hj. rewrite dget_dset_ne in Hi, Hj by tauto.
  destruct (Hpend i j cij x y Hrel Hi Hj Hout) as [Hq|Hq]; by apply elem_of_nil in Hq.
Qed.

Lemma backtrack_at_pending depth a cnt a' cnt' :
  backtrack_at pop_index self depth a cnt = (Ok (Found a'), cnt') →
  pending self a [] → pending self a' [].
Proof using self_mutual.
  intros Hrun Hstart.
  refine (backtrack_at_result pop_index self
            (λ a result, pending self a [] → ∀ a', result = Found a' → pending self a' [])
            _ _ _ depth a cnt _ cnt' Hrun Hstart a' eq_refl).
  - by intros a0 _ Hpend a1 [= <-].
  - done.
  - intros a0 var vals value a1 result _ _ _ _ Hbranch IH _ Hpend a2 ->.
    apply IH; [|done]. by eapply branch_pending.
Qed.

Lemma registered_in_all_arcs i j cij : relation self i j = Some cij → (i, j) ∈ get_all_arcs self.
Proof.
  unfold relation, get_all_arcs. destruct (dget i (constraints self)) as [ci|] eqn:Hci; [|done].
  simpl. intros Hj. apply list_elem_of_bind. exists (i, ci).
  split; [|by apply dget_Some_elem_of].
  apply list_elem_of_bind. exists j. split; [by left|].
  apply dget_is_Some_keys. by eexists.
Qed.

Lemma narrows_empty a' a i : narrows a' a → dget i a = Some [] → dget i a' = Some [].
Proof.
  unfold narrows. induction 1 as [|[k' v'] [k v] a' a [Hk Hs] _ IH]; simpl in *; [done|].
  subst k'. case_decide; [|done]. intros [= ->]. by apply sublist_nil_r in Hs as ->.
Qed.

(** C2 (amended).  On a store whose constraints are registered two-way with
    mutually transposed relations, when [backtracking_search] returns an
    assignment in which no domain is empty, every registered arc whose two
    variables are decided holds the pair of their values. *)
Theorem backtracking_search_sound_on_two_way_stores a self' :
  backtracking_search pop_index self = (Ok (Found a), self') →
  no_empty_domain a → sound self a.
Proof using self_mutual.
  unfold backtracking_search.
  destruct (inference pop_index self (deepcopy (domains self)) (get_all_arcs self))
    as [[a0 consistent]| |] eqn:Hinf; [|done..].
  unfold backtrack.
  destruct (backtrack_at pop_index self (S (undecided a0)) a0 (counters_of self))
    as [result cnt] eqn:Hrun.
  intros [= -> <-] Hfull.
  destruct consistent.
  - assert (pending self a []) as Hpend.
    { apply (backtrack_at_pending _ _ _ _ _ Hrun), (inference_pending _ _ _ Hinf).
      intros i j cij x y Hrel _ _ _. left. by eapply registered_in_all_arcs. }
    intros i j cij x y Hrel Hi Hj.
    destruct (decide ((x, y) ∈ cij)) as [|Hout]; [done|].
    destruct (Hpend i j cij x y Hrel Hi Hj Hout) as [Hq|Hq]; by apply elem_of_nil in Hq.
  - apply inference_false in Hinf as [xi Hxi].
    apply backtrack_at_narrows in Hrun. destruct (Hfull xi). by eapply narrows_empty.
Qed.
End soundness.

Lemma towards_v_built :
  add_constraint_one_way "k" "v" (λ x y, bool_decide (y = "2"))
    (add_variable "v" ["1"; "2"] (add_variable "k" ["1"] init)) = Ok Examples.towards_v.
Proof. reflexivity. Qed.

(** With the constraint from ["k"] to ["v"] registered one way only, the
    propagation passes, [backtrack] tries the value ["1"] for ["v"], finds no
    arc to revise and returns: both variables are decided on the pair
    [("1", "1")], which the relation of [("k", "v")] does not hold. *)
Lemma backtracking_search_unsound_on_one_way_store : ¬ search_is_sound.
Proof.
  intros Hsound.
  specialize (Hsound Examples.pop_first Examples.towards_v
                [("k", ["1"]); ("v", ["1"])] _ eq_refl
                "k" "v" [("1", "2")] "1" "1" eq_refl eq_refl eq_refl).
  apply list_elem_of_singleton in Hsound. discriminate Hsound.
Qed.

Lemma three_colours_mutual : mutual Examples.three_colours.
Proof.
  assert (∀ x y : string,
            (x, y) ∈ [("r", "g"); ("r", "b"); ("g", "r"); ("g", "b"); ("b", "r"); ("b", "g")] →
            (y, x) ∈ [("r", "g"); ("r", "b"); ("g", "r"); ("g", "b"); ("b", "r"); ("b", "g")])
    as Hflip.
  { intros x y Hin.
    repeat (apply elem_of_cons in Hin as [[= -> ->]|Hin];
            [apply (bool_decide_unpack _); vm_compute; exact I|]).
    by apply elem_of_nil in Hin. }
  intros i j cij Hrel. unfold relation in Hrel. simpl in Hrel.
  repeat (case_decide; simplify_eq; simpl in Hrel);
    repeat (case_decide; simplify_eq);
    (eexists; split; [reflexivity|]); split; apply Hflip.
Qed.

Lemma backtracking_search_sound_on_two_way_stores_witness :
  mutual Examples.three_colours ∧
  backtracking_search Examples.pop_first Examples.three_colours
  = (Ok (Found [("A", ["r"]); ("B", ["g"]); ("C", ["b"])]),
     with_counters Examples.three_colours (mkCounters 3 0)) ∧
  no_empty_domain [("A", ["r"]); ("B", ["g"]); ("C", ["b"])] ∧
  sound Examples.three_colours [("A", ["r"]); ("B", ["g"]); ("C", ["b"])].
Proof.
  assert (no_empty_domain [("A", ["r"]); ("B", ["g"]); ("C", ["b"])]) as Hfull.
  { intros i. simpl. repeat case_decide; done. }
  split; [exact three_colours_mutual|].
  split; [vm_compute; reflexivity|].
  split; [exact Hfull|].
  apply (backtracking_search_sound_on_two_way_stores Examples.pop_first
           Examples.three_colours three_colours_mutual _
           (with_counters Examples.three_colours (mkCounters 3 0)));
    [vm_compute; reflexivity | exact Hfull].
Defined.

(** ** The store and the values agree

    The functions on assignments compute what the code computes over the
    store: results, counters and the contents of the dictionaries that are
    returned are the same. *)

Section store_refinement.
Context {Var Val : Type} `{EqDecision Var} `{EqDecision Val}.
Variable pop_index : list (arc Var) → nat.
Variable self : CSP Var Val.
Implicit Types (h : Store.heap (Val := Val) (Var := Var)) (d l c : nat) (i j var : Var).
Implicit Types (items : dict Var nat) (L : list (list Val)).

Lemma dget_fmap_values {A B} (f : A → B) (dt : dict Var A) i :
  dget i ((λ item, (item.1, f item.2)) <$> dt) = f <$> dget i dt.
Proof.
  induction dt as [|[k v] dt IH]; csimpl; [done|]. by case_decide.
Qed.

Lemma dset_fmap_values {A B} (f : A → B) (dt : dict Var A) i v :
  (λ item, (item.1, f item.2)) <$> dset i v dt
  = dset i (f v) ((λ item, (item.1, f item.2)) <$> dt).
Proof.
  induction dt as [|[k v0] dt IH]; csimpl; [done|].
  case_decide; csimpl; [done|]. by rewrite IH.
Qed.

Lemma subscript_view h d i :
  subscript (Store.view h d) i
  = li ← subscript (Store.read_dict h d) i; Ok (Store.read_list h li).
Proof.
  unfold subscript, Store.view. rewrite dget_fmap_values.
  by destruct (dget i (Store.read_dict h d)).
Qed.

(** Writing the list of one key changes the entry of that key, and no
    other, when no list is shared. *)
Lemma view_items_insert items L i li v :
  dget i items = Some li → NoDup (values items) → li < length L →
  (λ item, (item.1, <[li := v]> L !!! item.2)) <$> items
  = dset i v ((λ item, (item.1, L !!! item.2)) <$> items).
Proof.
  unfold values. intros Hget Hnd Hlt.
  induction items as [|[k l] items IH]; csimpl in *; [done|].
  apply NoDup_cons in Hnd as [Hl Hnd].
  case_decide; simplify_eq.
  - rewrite list_lookup_total_insert_eq by done. f_equal.
    apply list_fmap_ext. intros n item Hitem. f_equal.
    apply list_lookup_total_insert_ne. intros ->. apply Hl.
    apply (list_elem_of_fmap_2 snd). by eapply list_elem_of_lookup_2.
  - rewrite IH by done. f_equal. f_equal.
    apply list_lookup_total_insert_ne. intros ->. apply Hl.
    by eapply (dget_Some_values items i).
Qed.

Lemma view_write_list h d i li v :
  separate h d → dget i (Store.read_dict h d) = Some li →
  Store.view (Store.write_list h li v) d = dset i v (Store.view h d) ∧
  separate (Store.write_list h li v) d.
Proof.
  intros [[Hdict Hrefs] Hnd] Hget.
  assert (li < length (Store.lists h)) as Hlt.
  { apply lookup_lt_is_Some, Hrefs. by eapply dget_Some_values. }
  split.
  - unfold Store.view, Store.read_list, Store.read_dict, Store.write_list. simpl.
    by apply view_items_insert.
  - split; [split|]; [done| |done].
    intros l Hl. simpl. apply lookup_lt_is_Some. rewrite length_insert.
    by apply lookup_lt_is_Some, Hrefs.
Qed.

Lemma store_revise_loop_agrees i j fuel : ∀ idx d h revised,
  separate h d →
  observe d (Store.revise_loop self i j fuel idx d h revised)
  = revise_loop self i j fuel idx (Store.view h d) revised.
Proof.
  induction fuel as [|fuel IH]; intros idx d h revised Hsep; simpl; [done|].
  rewrite !subscript_view.
  destruct (subscript (Store.read_dict h d) i) as [li| |] eqn:Hli; simpl; [|done..].
  destruct (Store.read_list h li !! idx) as [x|]; [|done].
  destruct (subscript (Store.read_dict h d) j) as [lj| |]; simpl; [|done..].
  destruct (any_support self i j x (Store.read_list h lj)) as [[|]| |]; simpl;
    [by apply IH| |done..].
  destruct (list_remove x (Store.read_list h li)) as [di'|]; [|done].
  apply subscript_Ok in Hli.
  destruct (view_write_list h d i li di' Hsep Hli) as [<- Hsep'].
  by apply IH.
Qed.

Lemma store_revise_agrees h d i j :
  separate h d →
  observe d (Store.revise self h d i j) = revise self (Store.view h d) i j.
Proof.
  intros Hsep. unfold Store.revise, revise. rewrite subscript_view.
  destruct (subscript (Store.read_dict h d) i) as [li| |]; cbn [Store.reading]; step_bind;
    [|done..].
  by apply store_revise_loop_agrees.
Qed.

Lemma separate_frame h h' d :
  separate h d → Store.dicts h' = Store.dicts h →
  length (Store.lists h') = length (Store.lists h) → separate h' d.
Proof.
  intros [[Hdict Hrefs] Hnd] Hd Hlen. unfold separate, allocated, Store.read_dict in *.
  rewrite Hd. split; [split|]; [done| |done].
  intros l Hl. apply lookup_lt_is_Some. rewrite Hlen. by apply lookup_lt_is_Some, Hrefs.
Qed.

Lemma store_inference_loop_agrees fuel : ∀ h d q,
  separate h d →
  observe d (Store.inference_loop pop_index self fuel h d q)
  = inference_loop pop_index self fuel (Store.view h d) q.
Proof.
  induction fuel as [|fuel IH]; intros h d q Hsep; simpl; [done|].
  destruct (set_pop pop_index q) as [[[xi xj] q']|]; [|done].
  rewrite <- (store_revise_agrees h d xi xj Hsep).
  destruct (Store.revise self h d xi xj) as [rev h1] eqn:Hrev.
  apply store_revise_frame in Hrev as (Hd1 & Hlen1 & _).
  pose proof (separate_frame h h1 d Hsep Hd1 Hlen1) as Hsep1.
  unfold observe at 2. simpl.
  destruct rev as [[|]| |]; step_bind; [| |done..].
  - rewrite subscript_view.
    destruct (subscript (Store.read_dict h1 d) xi) as [li| |]; cbn [Store.reading]; step_bind;
      [|done..].
    case_decide; [done|].
    destruct (get_all_neighboring_arcs self xi) as [ns| |]; cbn [Store.reading]; step_bind;
      [|done..].
    by apply IH.
  - by apply IH.
Qed.

Lemma store_inference_agrees h d queue :
  separate h d →
  observe d (Store.inference pop_index self h d queue)
  = inference pop_index self (Store.view h d) queue.
Proof. intros Hsep. by apply store_inference_loop_agrees. Qed.

(** When no list is shared, [copy.deepcopy] allocates one list per key, in
    the order of the keys. *)
Lemma store_deepcopy_items_separate items : ∀ (memo : dict nat nat) h,
  (∀ l, l ∈ values items → dget l memo = None ∧ l < length (Store.lists h)) →
  NoDup (values items) →
  Store.deepcopy_items items memo h
  = (imap (λ n item, (item.1, length (Store.lists h) + n)) items,
     Store.mkHeap (Store.lists h ++ (Store.read_list h <$> values items)) (Store.dicts h)).
Proof.
  unfold values.
  induction items as [|[k l] items IH]; intros memo h Hrefs Hnd; csimpl.
  - rewrite app_nil_r. by destruct h.
  - apply NoDup_cons in Hnd as [Hl Hnd].
    destruct (Hrefs l) as [-> Hlt]; [by left|]. simpl.
    rewrite IH; [|simpl|done].
    + simpl. f_equal.
      * f_equal; [by rewrite Nat.add_0_r|]. apply imap_ext. intros n item _. simpl.
        rewrite length_app. simpl. f_equal. lia.
      * f_equal. rewrite <- app_assoc. simpl. do 2 f_equal.
        apply list_fmap_ext. intros n l2 Hl2. unfold Store.read_list. simpl.
        apply lookup_total_app_l. apply Hrefs. right. by eapply list_elem_of_lookup_2.
    + intros l2 Hl2. destruct (Hrefs l2) as [Hmemo Hlt2]; [by right|].
      split; [|rewrite length_app; lia].
      case_decide; [|done]. by subst.
Qed.

Lemma values_imap_seq items base :
  values (imap (λ n (item : Var * nat), (item.1, base + n)) items) = seq base (length items).
Proof.
  unfold values. revert base. induction items as [|item items IH]; intros base; csimpl; [done|].
  rewrite Nat.add_0_r. f_equal. rewrite <- IH. f_equal. apply imap_ext.
  intros n item' _. simpl. f_equal. lia.
Qed.

Lemma store_deepcopy_separate h d c h' :
  separate h d → Store.deepcopy h d = (c, h') →
  Store.view h' c = Store.view h d ∧ separate h' c.
Proof.
  intros [[[items Hitems] Hrefs] Hnd]. unfold Store.deepcopy.
  pose proof (list_lookup_total_correct _ _ _ Hitems) as Hread.
  unfold Store.read_dict in *. rewrite Hread in *.
  rewrite store_deepcopy_items_separate; [|by intros l Hl; split; [|apply lookup_lt_is_Some; auto]|done].
  intros [= <- <-].
  assert ((Store.dicts h ++ [imap (λ n (item : Var * nat), (item.1, length (Store.lists h) + n)) items])
            !!! length (Store.dicts h)
          = imap (λ n (item : Var * nat), (item.1, length (Store.lists h) + n)) items) as Hcopy.
  { apply list_lookup_total_correct. by rewrite lookup_app_r, Nat.sub_diag. }
  split.
  - unfold Store.view, Store.read_dict, Store.read_list. simpl. rewrite Hcopy, Hread.
    apply list_eq. intros n. rewrite !list_lookup_fmap, list_lookup_imap.
    destruct (items !! n) as [[k l]|] eqn:Hn; simpl; [|done]. do 2 f_equal.
    rewrite lookup_total_app_r by lia.
    replace (length (Store.lists h) + n - length (Store.lists h)) with n by lia.
    apply list_lookup_total_correct. unfold values. by rewrite !list_lookup_fmap, Hn.
  - unfold separate, allocated, Store.read_dict. simpl. rewrite Hcopy, values_imap_seq.
    split; [split|].
    + rewrite lookup_app_r, Nat.sub_diag by done. by eexists.
    + intros l [n Hn]%list_elem_of_lookup_1. apply lookup_seq in Hn as [-> Hn].
      apply lookup_lt_is_Some.
      rewrite length_app, length_fmap. unfold values. rewrite length_fmap. lia.
    + apply NoDup_seq.
Qed.

Lemma NoDup_values_dset {A} (dt : dict Var A) i v :
  NoDup (values dt) → v ∉ values dt → NoDup (values (dset i v dt)).
Proof.
  unfold values. induction dt as [|[k v0] dt IH]; csimpl; intros Hnd Hv.
  - apply NoDup_singleton.
  - apply NoDup_cons in Hnd as [Hv0 Hnd]. apply not_elem_of_cons in Hv as [Hne Hv].
    case_decide; csimpl; apply NoDup_cons; split; try done; [|by apply IH].
    intros [->|Hin]%(values_dset dt i v v0); done.
Qed.

(** The dictionary that a pass of the loop hands on: the copy, with the
    tentative value under the selected variable. *)
Lemma store_copy_and_set h d var (value : Val) c h1 :
  separate h d → Store.deepcopy h d = (c, h1) →
  let h2 := (Store.alloc_list h1 [value]).2 in
  let h3 := Store.write_dict h2 c
              (dset var (length (Store.lists h1)) (Store.read_dict h2 c)) in
  Store.view h3 c = dset var [value] (Store.view h d) ∧ separate h3 c.
Proof.
  intros Hsep Hcopy.
  destruct (store_deepcopy_separate h d c h1 Hsep Hcopy) as [Hview [[[items Hitems] Hrefs] Hnd]].
  pose proof (list_lookup_total_correct _ _ _ Hitems) as Hread.
  apply lookup_lt_Some in Hitems as Hc.
  unfold Store.read_dict in *. rewrite Hread in *. simpl.
  assert (<[c:=dset var (length (Store.lists h1)) items]> (Store.dicts h1) !!! c
          = dset var (length (Store.lists h1)) items) as Hset.
  { apply list_lookup_total_correct. by apply list_lookup_insert_eq. }
  split.
  - unfold Store.view, Store.read_dict, Store.read_list in *. simpl.
    rewrite Hread in Hview |- *.
    rewrite Hset, (dset_fmap_values (λ l, (Store.lists h1 ++ [[value]]) !!! l)), <- Hview.
    f_equal.
    + apply list_lookup_total_correct. by rewrite lookup_app_r, Nat.sub_diag.
    + apply list_fmap_ext. intros n item Hitem. f_equal.
      apply lookup_total_app_l, lookup_lt_is_Some, Hrefs.
      apply (list_elem_of_fmap_2 snd). by eapply list_elem_of_lookup_2.
  - unfold separate, allocated, Store.read_dict. simpl. rewrite Hread, Hset.
    assert (length (Store.lists h1) ∉ values items) as Hfresh.
    { intros Hin%Hrefs%lookup_lt_is_Some. lia. }
    split; [split|].
    + rewrite list_lookup_insert_eq by done. by eexists.
    + intros l [->|Hin]%values_dset; apply lookup_lt_is_Some; rewrite length_app; simpl; [lia|].
      apply Hrefs, lookup_lt_is_Some in Hin. lia.
    + by apply NoDup_values_dset.
Qed.

Lemma store_branch_agrees h d var value :
  separate h d →
  observe_branch (Store.branch pop_index self h d var value)
  = branch pop_index self (Store.view h d) var value ∧
  ∀ c b, (Store.branch pop_index self h d var value).1 = Ok (c, b) →
    separate (Store.branch pop_index self h d var value).2 c.
Proof.
  intros Hsep. unfold Store.branch, branch, deepcopy.
  destruct (Store.deepcopy h d) as [c h1] eqn:Hcopy.
  destruct (store_copy_and_set h d var value c h1 Hsep Hcopy) as [Hview3 Hsep3].
  simpl in *.
  set (h3 := Store.write_dict _ c _) in *.
  destruct (get_all_neighboring_arcs self var) as [ns| |]; cbn [Store.reading]; step_bind;
    [|by split..].
  rewrite <- Hview3, <- (store_inference_agrees h3 c ns Hsep3).
  destruct (Store.inference pop_index self h3 c ns) as [ri h4] eqn:Hinf.
  apply store_inference_frame in Hinf as (Hd4 & Hlen4 & _).
  pose proof (separate_frame h3 h4 c Hsep3 Hd4 Hlen4) as Hsep4.
  destruct ri as [b| |]; (split; [done|]); simpl; [|done..].
  by intros c' b' [= <- <-].
Qed.

Lemma separate_preserved h h' d : separate h d → preserved h h' → separate h' d.
Proof.
  intros [[[items Hitems] Hrefs] Hnd] [Hlists Hdicts].
  unfold separate, allocated, Store.read_dict in *.
  rewrite (list_lookup_total_correct _ _ _ Hitems) in Hrefs, Hnd.
  rewrite (list_lookup_total_correct _ _ _ (Hdicts _ _ Hitems)).
  split; [split|]; [exists items; by apply Hdicts| |done].
  intros l [v Hv]%Hrefs. exists v. by apply Hlists.
Qed.

Lemma truthy_view h c :
  Store.truthy h (Store.Found c) = truthy (Found (Store.view h c)).
Proof. unfold Store.view. simpl. by destruct (Store.read_dict h c). Qed.

Lemma store_candidates_loop_agrees over_store on_values h0 d var lv :
  agree over_store on_values →
  separate h0 d → dget var (Store.read_dict h0 d) = Some lv →
  ∀ fuel idx h cnt,
    preserved h0 h →
    idx ≤ length (Store.read_list h0 lv) →
    length (Store.read_list h0 lv) < idx + fuel →
    observe_call (Store.candidates_loop pop_index self over_store d var lv fuel idx h cnt)
    = candidates_loop pop_index self on_values (Store.view h0 d) var
        (drop idx (Store.read_list h0 lv)) cnt.
Proof.
  intros Hagree Hsep0 Hlv.
  assert (is_Some (Store.lists h0 !! lv)) as [vals Hvals].
  { destruct Hsep0 as [[_ Hrefs] _]. by eapply Hrefs, dget_Some_values. }
  assert (Store.read_list h0 lv = vals) as Hread0 by (by apply list_lookup_total_correct).
  rewrite Hread0.
  induction fuel as [|fuel IH]; intros idx h cnt Hpres Hidx Hfuel; [lia|].
  assert (Store.read_list h lv = vals) as Hread.
  { apply list_lookup_total_correct. by apply Hpres. }
  pose proof (separate_preserved h0 h d Hsep0 Hpres) as Hsep.
  assert (Store.view h d = Store.view h0 d) as Hview
    by (apply preserved_view; [done | apply Hsep0]).
  cbn [Store.candidates_loop]. rewrite Hread.
  destruct (vals !! idx) as [value|] eqn:Hvalue.
  - rewrite (drop_S _ _ _ Hvalue). cbn [candidates_loop].
    apply lookup_lt_Some in Hvalue as Hlt.
    destruct (store_branch_agrees h d var value Hsep) as [Hbranch Hsepc].
    rewrite Hview in Hbranch. rewrite <- Hbranch.
    destruct (Store.branch pop_index self h d var value) as [rb h1] eqn:Hrun.
    apply store_branch_isolated in Hrun as [Hpres1 _].
    unfold observe_branch. simpl in *.
    destruct rb as [[c [|]]| |]; [| |done..].
    + destruct (Hagree h1 c cnt (Hsepc c true eq_refl)) as [Hcall Hpres2].
      rewrite <- Hcall.
      destruct (over_store h1 c cnt) as [[rr h2] cnt2]. unfold observe_call at 2. simpl in *.
      assert (preserved h0 h2) as Hpres02
        by (eapply preserved_trans; [|done]; by eapply preserved_trans).
      destruct rr as [[|c2]| |]; try done.
      * by apply IH; [|lia..].
      * pose proof (truthy_view h2 c2) as Htruthy.
        unfold observe_answer at 2. simpl in *. rewrite <- Htruthy.
        destruct (Store.read_dict h2 c2); [|done].
        by apply IH; [|lia..].
    + apply IH; [|lia..]. by eapply preserved_trans.
  - by rewrite (drop_ge vals idx) by (by apply lookup_ge_None).
Qed.

Lemma store_backtrack_at_agrees depth :
  agree (Store.backtrack_at pop_index self depth) (backtrack_at pop_index self depth).
Proof.
  induction depth as [|depth IH]; intros h d cnt Hsep;
    (split; [|exact (store_backtrack_at_preserved pop_index self _ h d cnt _ eq_refl)]);
    [done|].
  cbn [Store.backtrack_at backtrack_at].
  destruct (assignment_is_done (Store.view h d)); [done|].
  destruct (select_unassigned_variable (Store.view h d)) as [var| |]; [|done..].
  unfold order_domain_values. rewrite subscript_view.
  destruct (subscript (Store.read_dict h d) var) as [lv| |] eqn:Hlv; step_bind; [|done..].
  apply subscript_Ok in Hlv.
  rewrite (store_candidates_loop_agrees _ _ h d var lv IH Hsep Hlv);
    [done | apply preserved_refl | lia..].
Qed.

Lemma domains_heap_separate : separate (Store.domains_heap self) Store.domains_ref.
Proof.
  split; [apply domains_heap_allocated|].
  unfold Store.read_dict, Store.domains_heap, Store.domains_ref. simpl.
  change (imap (λ n (item : Var * list Val), (item.1, n)) (domains self))
    with (imap (λ n (item : Var * list Val), (item.1, 0 + n)) (domains self)).
  unfold values. generalize 0 as base. generalize (domains self) as dt.
  induction dt as [|item dt IHdt]; intros base; csimpl; [apply NoDup_nil_2|].
  apply NoDup_cons. split.
  - rewrite Nat.add_0_r. intros (item' & Heq & Hin)%list_elem_of_fmap.
    apply list_elem_of_lookup in Hin as [n Hn]. rewrite list_lookup_imap in Hn.
    destruct (dt !! n) as [it|]; simpl in Hn; [|done].
    injection Hn as <-. simpl in Heq. lia.
  - specialize (IHdt (S base)). erewrite imap_ext; [exact IHdt|].
    intros n item' _. simpl. f_equal. lia.
Qed.

(** Over the store and on values, [backtracking_search] returns the same:
    the same result, with the same contents of the dictionary returned, and
    the same counters. *)
Theorem store_backtracking_search_agrees :
  (observe_answer (Store.backtracking_search pop_index self).1,
   (Store.backtracking_search pop_index self).2)
  = backtracking_search pop_index self.
Proof.
  unfold Store.backtracking_search, backtracking_search, deepcopy.
  destruct (Store.deepcopy (Store.domains_heap self) Store.domains_ref) as [c h1] eqn:Hcopy.
  destruct (store_deepcopy_separate _ _ _ _ domains_heap_separate Hcopy) as [Hview1 Hsep1].
  rewrite domains_heap_view in Hview1.
  rewrite <- Hview1, <- (store_inference_agrees h1 c _ Hsep1).
  destruct (Store.inference pop_index self h1 c (get_all_arcs self)) as [ri h2] eqn:Hinf.
  apply store_inference_frame in Hinf as (Hd2 & Hlen2 & _).
  pose proof (separate_frame h1 h2 c Hsep1 Hd2 Hlen2) as Hsep2.
  unfold observe. simpl.
  destruct ri as [b| |]; [|done..].
  unfold Store.backtrack, backtrack.
  destruct (store_backtrack_at_agrees (S (undecided (Store.view h2 c))) h2 c
              (counters_of self) Hsep2) as [Hcall _].
  rewrite <- Hcall.
  by destruct (Store.backtrack_at pop_index self _ h2 c (counters_of self)) as [[rb h3] cnt3].
Qed.
End store_refinement.

(** ** A Sudoku row with a repeated digit *)

Lemma row_with_two_ones_built :
  add_all_different_constraint Examples.row_cells
    (foldl (λ self cell, add_variable cell.1 [cell.2] self) init
           (zip Examples.row_cells Examples.row_digits))
  = Ok Examples.row_with_two_ones.
Proof. vm_compute. reflexivity. Qed.

(** The preprocessing fails on the row, and the search returns the row with
    one of the two cells emptied: which one depends on the order of
    [set.pop]. *)
Example row_with_two_ones_first :
  inference Examples.pop_first Examples.row_with_two_ones
    (deepcopy (domains Examples.row_with_two_ones)) (get_all_arcs Examples.row_with_two_ones)
  = Ok ([("0-0", []); ("0-1", ["1"]); ("0-2", ["3"]); ("0-3", ["4"]); ("0-4", ["5"]);
         ("0-5", ["6"]); ("0-6", ["7"]); ("0-7", ["8"]); ("0-8", ["9"])], false) ∧
  (backtracking_search Examples.pop_first Examples.row_with_two_ones).1
  = Ok (Found [("0-0", []); ("0-1", ["1"]); ("0-2", ["3"]); ("0-3", ["4"]); ("0-4", ["5"]);
               ("0-5", ["6"]); ("0-6", ["7"]); ("0-7", ["8"]); ("0-8", ["9"])]) ∧
  backtrack_called (backtracking_search Examples.pop_first Examples.row_with_two_ones).2 = 1.
Proof. vm_compute. done. Qed.

Example row_with_two_ones_last :
  (backtracking_search Examples.pop_last Examples.row_with_two_ones).1
  = Ok (Found [("0-0", ["1"]); ("0-1", []); ("0-2", ["3"]); ("0-3", ["4"]); ("0-4", ["5"]);
               ("0-5", ["6"]); ("0-6", ["7"]); ("0-7", ["8"]); ("0-8", ["9"])]).
Proof. vm_compute. done. Qed.

(** ** No exception on two-way stores, and contradictory puzzles *)

Section store_checks.
Context {Var Val : Type} `{EqDecision Var} `{EqDecision Val}.
Variable self : CSP Var Val.
Implicit Types (a : assignment Var Val).

Lemma mutualb_correct : mutualb self = true → mutual self.
Proof.
  unfold mutualb. rewrite forallb_forall. intros Hall i j cij Hrel.
  specialize (Hall (i, j)). rewrite <- list_elem_of_In in Hall.
  specialize (Hall (registered_in_all_arcs self i j cij Hrel)). simpl in Hall.
  rewrite Hrel in Hall. destruct (relation self j i) as [cji|]; [|done].
  apply andb_true_iff in Hall as [Hij Hji]. rewrite forallb_forall in Hij, Hji.
  exists cji. split; [done|]. intros x y. split; intros Hin.
  - apply list_elem_of_In, Hij in Hin. by apply bool_decide_eq_true in Hin.
  - apply list_elem_of_In, Hji in Hin. by apply bool_decide_eq_true in Hin.
Qed.

Lemma coversb_correct a : coversb self a = true → covers self a.
Proof.
  unfold coversb. rewrite forallb_forall. intros Hall i j [cij Hrel].
  specialize (Hall (i, j)). rewrite <- list_elem_of_In in Hall.
  specialize (Hall (registered_in_all_arcs self i j cij Hrel)).
  by apply bool_decide_eq_true in Hall.
Qed.
End store_checks.

Section well_formed_stores.
Context {Var Val : Type} `{EqDecision Var} `{EqDecision Val}.
Variable pop_index : list (arc Var) → nat.
Variable self : CSP Var Val.
Hypothesis self_mutual : mutual self.
Hypothesis constraints_dict : NoDup (keys (constraints self)).
Implicit Types (a : assignment Var Val) (i j k var : Var) (x y : Val) (q : list (arc Var)).

Lemma all_arcs_registered i j : (i, j) ∈ get_all_arcs self → registered self i j.
Proof using constraints_dict.
  unfold get_all_arcs. intros ([i' ci] & Hin & Hci)%list_elem_of_bind.
  apply list_elem_of_bind in Hin as (j' & Hin & Hj').
  apply list_elem_of_singleton in Hin. simplify_eq.
  unfold registered, relation. rewrite (elem_of_dget _ _ _ constraints_dict Hci). simpl.
  by apply dget_is_Some_keys.
Qed.

Lemma covers_narrows a' a : narrows a' a → covers self a → covers self a'.
Proof.
  intros Hkeys%narrows_keys Hcov i j Hreg. destruct (Hcov i j Hreg) as [Hi Hj].
  rewrite !dget_is_Some_keys, Hkeys, <- !dget_is_Some_keys. done.
Qed.

Lemma revise_loop_no_raise i j cij fuel : ∀ idx a revised e,
  relation self i j = Some cij → is_Some (dget i a) → is_Some (dget j a) →
  revise_loop self i j fuel idx a revised ≠ Raise e.
Proof.
  induction fuel as [|fuel IH]; intros idx a revised e Hrel [di Hdi] [dj Hdj]; simpl; [done|].
  unfold subscript. rewrite Hdi, Hdj. simpl.
  destruct (di !! idx) as [x|] eqn:Hx; [|done].
  assert (∃ b, any_support self i j x dj = Ok b) as [b ->].
  { unfold any_support, subscript, relation in *. destruct dj; [by eexists|].
    destruct (dget i (constraints self)) as [ci|]; simpl in *; [|done].
    rewrite Hrel. simpl. by eexists. }
  simpl. destruct b; [apply (IH _ _ _ _ Hrel); eauto|].
  destruct (list_remove_elem_of x di) as [di' ->]; [by eapply list_elem_of_lookup_2|].
  apply (IH _ _ _ _ Hrel); [by rewrite dget_dset_eq|].
  rewrite dget_dset. case_decide; eauto.
Qed.

Lemma revise_no_raise a i j e :
  registered self i j → is_Some (dget i a) → is_Some (dget j a) →
  revise self a i j ≠ Raise e.
Proof.
  intros [cij Hrel] [di Hdi] Hj. unfold revise, subscript. rewrite Hdi. step_bind.
  eapply revise_loop_no_raise; eauto.
Qed.

Lemma inference_loop_no_raise fuel : ∀ a q e,
  covers self a → (∀ t, t ∈ q → registered self t.1 t.2) →
  inference_loop pop_index self fuel a q ≠ Raise e.
Proof using self_mutual.
  induction fuel as [|fuel IH]; intros a q e Hcov Hq; simpl; [done|].
  destruct (set_pop pop_index q) as [[[xi xj] q']|] eqn:Hpop; [|done].
  assert (registered self xi xj) as Hreg.
  { apply (Hq (xi, xj)). by apply set_pop_Some in Hpop as [? _]. }
  assert (∀ t, t ∈ q' → registered self t.1 t.2) as Hq'.
  { intros t Ht. apply Hq. unfold set_pop in Hpop.
    destruct (q !! (pop_index q `mod` length q)); simpl in Hpop; [|done].
    simplify_eq. by eapply sublist_subseteq; [apply sublist_delete|]. }
  destruct (Hcov xi xj Hreg) as [Hxi Hxj].
  pose proof (revise_no_raise a xi xj) as Hrev.
  destruct (revise self a xi xj) as [[a1 revised]|e1|] eqn:Hrun; step_bind;
    [|by destruct (Hrev e1)|done].
  apply revise_Ok in Hrun as (Hn & _ & _).
  pose proof (covers_narrows _ _ Hn Hcov) as Hcov1.
  destruct revised; [|by apply IH].
  destruct (Hcov1 xi xj Hreg) as [[di Hdi] _]. unfold subscript. rewrite Hdi. step_bind.
  case_decide; [done|].
  destruct Hreg as [cij Hrel].
  unfold get_all_neighboring_arcs, subscript. unfold relation in Hrel.
  destruct (dget xi (constraints self)) as [cv|] eqn:Hcv; simpl in Hrel; [|done].
  step_bind. apply IH; [done|].
  intros t [Ht|Ht]%elem_of_foldl_set_add; [by apply Hq'|].
  apply list_elem_of_fmap in Ht as (k & -> & Hk). simpl.
  apply dget_is_Some_keys in Hk as [cik Hcik].
  destruct (self_mutual xi k cik) as (cki & Hrev' & _); [|by eexists].
  unfold relation. by rewrite Hcv.
Qed.

(** [revise] returns [True] only when it has shortened the domain of [i]. *)
Lemma revise_loop_shortens i j fuel : ∀ idx a revised a' r,
  revise_loop self i j fuel idx a revised = Ok (a', r) →
  ∃ di di', dget i a = Some di ∧ dget i a' = Some di' ∧
    length di' ≤ length di ∧ (r = true → revised = true ∨ length di' < length di).
Proof.
  induction fuel as [|fuel IH]; intros idx a revised a' r; simpl; [done|].
  unfold subscript. destruct (dget i a) as [di|] eqn:Hdi; simpl; [|done].
  destruct (di !! idx) as [x|]; [|intros [= <- <-]; exists di, di; by eauto].
  destruct (dget j a) as [dj|]; simpl; [|done].
  destruct (any_support self i j x dj) as [[|]| |]; simpl; [| |done..].
  - intros (di0 & di' & Hdi0 & Hdi' & Hle & Hlt)%IH. simplify_eq. by exists di, di'.
  - destruct (list_remove x di) as [di1|] eqn:Hrm; [|done].
    apply list_remove_Some in Hrm as [_ Hlen].
    intros (di0 & di' & Hdi0 & Hdi' & Hle & Hlt)%IH.
    rewrite dget_dset_eq in Hdi0. simplify_eq.
    exists di, di'. split; [done|]. split; [done|]. split; [lia|]. intros _. right. lia.
Qed.

(** When every variable has at most one value, a successful propagation
    has removed nothing. *)
Lemma inference_loop_done fuel : ∀ a q a',
  assignment_is_done a = true →
  inference_loop pop_index self fuel a q = Ok (a', true) → a' = a.
Proof.
  induction fuel as [|fuel IH]; intros a q a' Hdone; simpl; [done|].
  destruct (set_pop pop_index q) as [[[xi xj] q']|]; [|by intros [= <-]].
  destruct (revise self a xi xj) as [[a1 revised]| |] eqn:Hrev; step_bind; [|done..].
  destruct revised.
  - intros Hloop. exfalso. unfold revise, subscript in Hrev.
    destruct (dget xi a) as [di|] eqn:Hdi; step_bind; [|done].
    apply revise_loop_shortens in Hrev as (di0 & di' & Hdi0 & Hdi' & _ & Hlt).
    destruct (Hlt eq_refl) as [|Hshort]; [done|]. simplify_eq.
    assert (length di ≤ 1) as Hone.
    { apply (proj1 (assignment_is_done_spec a) Hdone (xi, di)).
      by apply dget_Some_elem_of. }
    unfold subscript in Hloop. rewrite Hdi' in Hloop. step_bind.
    rewrite decide_True in Hloop by lia. done.
  - apply revise_Ok in Hrev as (_ & -> & _); [|done]. by apply IH.
Qed.

(** A contradictory puzzle: every declared domain holds at most one value,
    and two decided variables break a registered constraint.  The
    propagation then fails under every policy, and the search returns the
    assignment it left, with a variable that has no value. *)
Lemma backtracking_search_contradictory_puzzle i j cij x y :
  covers self (domains self) →
  assignment_is_done (domains self) = true →
  relation self i j = Some cij →
  decided (domains self) i x → decided (domains self) j y → (x, y) ∉ cij →
  ∃ a var,
    inference pop_index self (deepcopy (domains self)) (get_all_arcs self) = Ok (a, false) ∧
    backtracking_search pop_index self
    = (Ok (Found a),
       with_counters self (mkCounters (S (backtrack_called self)) (backtrack_failed self))) ∧
    dget var a = Some [].
Proof using self_mutual constraints_dict.
  intros Hcov Hdone Hrel Hi Hj Hout.
  assert (∀ t, t ∈ set_of_list (get_all_arcs self) → registered self t.1 t.2) as Hq.
  { intros [i' j'] Ht. apply all_arcs_registered. simpl.
    unfold set_of_list in Ht. rewrite elem_of_remove_dups in Ht. exact Ht. }
  pose proof (inference_terminates pop_index self (deepcopy (domains self)) (get_all_arcs self))
    as Hterm.
  pose proof (λ e, inference_loop_no_raise
                     (inference_budget self (domains self) (set_of_list (get_all_arcs self)))
                     (domains self) _ e Hcov Hq) as Hraise.
  unfold terminates, inference, deepcopy in *.
  destruct (inference_loop pop_index self _ (domains self) (set_of_list (get_all_arcs self)))
    as [[a consistent]|e|] eqn:Hinf; [|by destruct (Hraise e)|done].
  destruct consistent.
  - exfalso. pose proof (inference_loop_done _ _ _ _ Hdone Hinf) as ->.
    assert (pending self (domains self) []) as Hpend.
    { apply (inference_loop_pending pop_index self self_mutual _ _ _ _ Hinf).
      intros i' j' cij' x' y' Hrel' _ _ _. left. apply elem_of_remove_dups.
      by eapply registered_in_all_arcs. }
    destruct (Hpend i j cij x y Hrel Hi Hj Hout) as [Hin|Hin]; by apply elem_of_nil in Hin.
  - destruct (backtracking_search_failed_preprocessing pop_index self a Hdone Hinf)
      as [Hsearch [var Hvar]].
    by exists a, var.
Qed.
End well_formed_stores.

Lemma row_with_two_ones_well_formed :
  mutual Examples.row_with_two_ones ∧
  NoDup (keys (constraints Examples.row_with_two_ones)) ∧
  covers Examples.row_with_two_ones (domains Examples.row_with_two_ones).
Proof.
  split; [|split].
  - apply mutualb_correct. vm_compute. reflexivity.
  - apply (bool_decide_unpack _). vm_compute. exact I.
  - apply coversb_correct. vm_compute. reflexivity.
Qed.

(** C1 (the code departs from the claim).  On a fully specified Sudoku row
    that holds the digit 1 twice, under every policy of [set.pop], the
    preprocessing pass fails, and [backtracking_search] goes on to call
    [backtrack] (the counter of calls is 1 afterwards) and returns the
    assignment that the failed pass left, in which a cell has no value,
    instead of [False].  On a row of two fives the result is one of the two
    assignments that empty one cell. *)
Theorem backtracking_search_ignores_failed_preprocessing (pop_index : list (arc string) → nat) :
  (∃ a var,
     inference pop_index Examples.row_with_two_ones
       (deepcopy (domains Examples.row_with_two_ones))
       (get_all_arcs Examples.row_with_two_ones) = Ok (a, false) ∧
     backtracking_search pop_index Examples.row_with_two_ones
     = (Ok (Found a), with_counters Examples.row_with_two_ones (mkCounters 1 0)) ∧
     dget var a = Some []) ∧
  (∃ a,
     inference pop_index Examples.two_fives (deepcopy (domains Examples.two_fives))
       (get_all_arcs Examples.two_fives) = Ok (a, false) ∧
     backtracking_search pop_index Examples.two_fives
     = (Ok (Found a), with_counters Examples.two_fives (mkCounters 1 0)) ∧
     (a = [("0-0", []); ("0-1", ["5"])] ∨ a = [("0-0", ["5"]); ("0-1", [])])).
Proof.
  split.
  - destruct row_with_two_ones_well_formed as (Hmutual & Hdict & Hcovers).
    apply (backtracking_search_contradictory_puzzle pop_index Examples.row_with_two_ones
             Hmutual Hdict "0-0" "0-1" [] "1" "1"); try reflexivity; [done|].
    apply not_elem_of_nil.
  - destruct (two_fives_inference pop_index) as (a & Hinf & Ha).
    exists a. split; [done|]. split; [|done].
    by apply (backtracking_search_failed_preprocessing pop_index Examples.two_fives a).
Qed.
